(** * visit_struct, intrusive registration: a verification development

    Source: include/visit_struct/visit_struct_intrusive.hpp.

    The header is template and macro metaprogramming: everything it does
    happens while a structure definition is compiled, except the visit
    itself.  The embedding therefore has two layers.

    - The compile-time layer.  The body of a structure is the sequence of
      member declarations the macros expand to.  Each macro is a function
      from the declarations seen so far to [option] of the declarations
      after it; [None] is an ill-formed program (a definition-time
      failure).  The language rules the macros rely on are written out:
      redeclaration of a member, lookup of a member typedef, the type of
      a pointer to member, and overload resolution of a call whose
      argument is a [Rank<N>] object.  The trait [traits::visitable] looks
      at a complete class from the outside: there a class is its members
      with their access and its base class, and [typename T::name] is
      looked up through both.

    - The run-time layer.  [structure_helper::apply_visitor] walks a
      [TypeList] and calls the visitor with a name and a reference.  A
      reference is the address of a subobject together with its
      cv-qualification and value category, which the accessor takes from
      the instance and from the declared type of the member; a visitor is
      a state transformer over an arbitrary state. *)

From stdpp Require Import base option list strings gmap.

(** ** The types of data members *)

Inductive cv_qualifier : Type := cv_none | cv_const.

#[global] Instance cv_qualifier_eq_dec : EqDecision cv_qualifier.
Proof. solve_decision. Defined.

(** The type a data member is declared with, as far as the header looks at
    it: an object type, const-qualified or not, or a reference type.  The
    name stands for a complete object type. *)
Inductive cpp_type : Type :=
  | object_of (cv : cv_qualifier) (name : string)
      (* name, const name *)
  | reference_to (cv : cv_qualifier) (name : string).
      (* name &, const name & *)

#[global] Instance cpp_type_eq_dec : EqDecision cpp_type.
Proof. solve_decision. Defined.

(** The cv-qualification of the type [T]; a reference type has none of its
    own. *)
Definition type_cv (T : cpp_type) : cv_qualifier :=
  match T with
  | object_of cv _ => cv
  | reference_to _ _ => cv_none
  end.

Definition is_reference (T : cpp_type) : bool :=
  match T with
  | object_of _ _ => false
  | reference_to _ _ => true
  end.

(** [T S::*]: there is no pointer to a member of reference type. *)
Definition pointer_to_member (T : cpp_type) : option cpp_type :=
  match T with
  | object_of _ _ => Some T
  | reference_to _ _ => None
  end.

(** ** namespace visit_struct::detail *)

Module detail.

(** [template <class... Ts> struct TypeList]: the pack [Ts...] in order. *)
Abbreviation TypeList := list (only parsing).

(** [static constexpr unsigned int size = sizeof...(Ts);]
    (packs are far shorter than [2^32]: the value is the pack length). *)
Definition TypeList_size {A : Type} (Ts : TypeList A) : nat := length Ts.

(** [template <class... Ts, class T> struct Append<TypeList<Ts...>, T>]
    with [typedef TypeList<Ts..., T> type;] *)
Definition Append {A : Type} (Ts : TypeList A) (T : A) : TypeList A :=
  foldr cons [T] Ts.

(** [template<class L, class T> using Append_t = typename Append<L, T>::type;] *)
Definition Append_t {A : Type} (L : TypeList A) (T : A) : TypeList A :=
  Append L T.

(** [template <int N> struct Rank : Rank<N - 1> {};]
    [template <> struct Rank<0> {};]
    The direct and indirect base classes of [Rank<N>], nearest first.
    Only ranks [0], [size + 1] and [maxVisitableRank] are ever named, so
    [N] is a natural number. *)
Fixpoint Rank_bases (N : nat) : list nat :=
  match N with
  | 0 => []
  | S n => n :: Rank_bases n
  end.

(** [static constexpr int maxVisitableRank = 200;] *)
Definition maxVisitableRank : nat := 200.

(** Position of [x] in [l]. *)
Fixpoint index_of (x : nat) (l : list nat) : option nat :=
  match l with
  | [] => None
  | y :: l' => if Nat.eqb x y then Some 0 else S <$> index_of x l'
  end.

(** The implicit conversion of an argument of type [Rank<arg>] to a
    parameter of type [Rank<param>]: the identity at depth [0], a
    derived-to-base conversion at the depth of the base in the hierarchy,
    and none when [Rank<param>] is not a base of [Rank<arg>]. *)
Definition conversion_depth (arg param : nat) : option nat :=
  index_of param (arg :: Rank_bases arg).

(** Overload resolution for a call with one argument of type [Rank<arg>].
    A candidate is the rank of its parameter and its return type.  A
    conversion to a nearer base is better; two viable candidates at the
    same depth make the call ambiguous. *)
Inductive resolution (R : Type) : Type :=
  | no_viable
  | best (depth : nat) (ret : R)
  | ambiguous (depth : nat).
Arguments no_viable {R}.
Arguments best {R} depth ret.
Arguments ambiguous {R} depth.

Definition consider {R : Type} (arg : nat) (cand : nat * R)
    (acc : resolution R) : resolution R :=
  match conversion_depth arg cand.1 with
  | None => acc
  | Some d =>
      match acc with
      | no_viable => best d cand.2
      | best d' r' =>
          if Nat.ltb d d' then best d cand.2
          else if Nat.ltb d' d then best d' r'
          else ambiguous d
      | ambiguous d' => if Nat.ltb d d' then best d cand.2 else ambiguous d'
      end
  end.

Definition overload_resolution {R : Type} (arg : nat)
    (cands : list (nat * R)) : option R :=
  match foldr (consider arg) no_viable cands with
  | best _ r => Some r
  | _ => None
  end.

(** [struct intrusive_tag{};] is the constructor [intrusive_tag] of
    [type_expr] below. *)

(** The member record that [VISITABLE(TYPE, NAME)] defines:
    [struct Visit_Struct_Member_Record__NAME :
       member_ptr_helper<VISIT_STRUCT_CURRENT_TYPE, TYPE,
                         &VISIT_STRUCT_CURRENT_TYPE::NAME>
     { static constexpr const char * const member_name = #NAME; };] *)
Record member_record : Type := {
  record_name : string;   (* the name of the nested struct *)
  helper_S : string;      (* template argument S *)
  helper_T : cpp_type;    (* template argument T *)
  member_ptr : string;    (* template argument member_ptr: &S::member_ptr *)
  member_name : string    (* the string literal #NAME *)
}.

#[global] Instance member_record_eq_dec : EqDecision member_record.
Proof. solve_decision. Defined.

End detail.

Export detail.

(** ** Member declarations of a structure under definition *)

(** The types the macros name. *)
Inductive type_expr : Type :=
  | named_type (n : string)
  | type_list (L : TypeList member_record)
  | intrusive_tag.

Inductive member_decl : Type :=
  | data_member (TYPE : cpp_type) (NAME : string)
      (* TYPE NAME; *)
  | member_typedef (target : type_expr) (alias : string)
      (* typedef target alias; *)
  | nested_struct (M : member_record)
      (* struct record_name : member_ptr_helper<...> { ... }; *)
  | static_function (ret : TypeList member_record) (fname : string)
      (rank : nat).
      (* static inline ret fname(Rank<rank>); *)

Definition class_body : Type := list member_decl.

Definition decl_name (d : member_decl) : string :=
  match d with
  | data_member _ NAME => NAME
  | member_typedef _ alias => alias
  | nested_struct M => record_name M
  | static_function _ fname _ => fname
  end.

(** A member shall not be declared twice in a member-specification; a
    function may be overloaded when its parameter type differs.  One name
    stands for one member here: a program that gives a data member, a
    typedef or a nested struct the name of another member of the same
    structure is rejected. *)
Definition redeclares (new old : member_decl) : bool :=
  String.eqb (decl_name new) (decl_name old) &&
  match new, old with
  | static_function _ _ r1, static_function _ _ r2 => Nat.eqb r1 r2
  | _, _ => true
  end.

Definition declare (d : member_decl) (body : class_body)
    : option class_body :=
  if existsb (redeclares d) body then None else Some (body ++ [d]).

(** Lookup of a member typedef inside the structure under definition; a
    name that is not a typedef names no type. *)
Fixpoint lookup_typedef (alias : string) (body : class_body)
    : option type_expr :=
  match body with
  | [] => None
  | member_typedef target a :: body' =>
      if String.eqb alias a then Some target else lookup_typedef alias body'
  | _ :: body' => lookup_typedef alias body'
  end.

(** The overloads of a member function, in declaration order. *)
Fixpoint overloads (fname : string) (body : class_body)
    : list (nat * TypeList member_record) :=
  match body with
  | [] => []
  | static_function ret f rank :: body' =>
      if String.eqb fname f then (rank, ret) :: overloads fname body'
      else overloads fname body'
  | _ :: body' => overloads fname body'
  end.

(** ** The macros *)

Definition Visit_Struct_Get_Visitables__ : string :=
  "Visit_Struct_Get_Visitables__".
Definition VISIT_STRUCT_CURRENT_TYPE : string :=
  "VISIT_STRUCT_CURRENT_TYPE".
Definition Visit_Struct_Registered_Members_List__ : string :=
  "Visit_Struct_Registered_Members_List__".
Definition Visit_Struct_Visitable_Structure_Tag__ : string :=
  "Visit_Struct_Visitable_Structure_Tag__".

(** [#define VISIT_STRUCT_GET_REGISTERED_MEMBERS
      decltype(Visit_Struct_Get_Visitables__(Rank<maxVisitableRank>{}))] *)
Definition VISIT_STRUCT_GET_REGISTERED_MEMBERS (body : class_body)
    : option (TypeList member_record) :=
  overload_resolution maxVisitableRank
    (overloads Visit_Struct_Get_Visitables__ body).

(** [#define VISIT_STRUCT_MAKE_MEMBER_NAME(NAME)
      Visit_Struct_Member_Record__##NAME] *)
Definition VISIT_STRUCT_MAKE_MEMBER_NAME (NAME : string) : string :=
  "Visit_Struct_Member_Record__" +:+ NAME.

(** [#define BEGIN_VISITABLES(NAME)] *)
Definition BEGIN_VISITABLES (NAME : string) (body : class_body)
    : option class_body :=
  body ← declare (member_typedef (named_type NAME) VISIT_STRUCT_CURRENT_TYPE)
           body;
  declare (static_function [] Visit_Struct_Get_Visitables__ 0) body.

(** [#define VISITABLE(TYPE, NAME)]: the data member, the member record
    and the next overload of the accumulator.  The base class of the member
    record is [member_ptr_helper<VISIT_STRUCT_CURRENT_TYPE, TYPE,
    &VISIT_STRUCT_CURRENT_TYPE::NAME>], whose third parameter has the type
    [TYPE VISIT_STRUCT_CURRENT_TYPE::*]. *)
Definition VISITABLE (TYPE : cpp_type) (NAME : string) (body : class_body)
    : option class_body :=
  body ← declare (data_member TYPE NAME) body;
  cur ← match lookup_typedef VISIT_STRUCT_CURRENT_TYPE body with
        | Some (named_type cur) => Some cur
        | _ => None
        end;
  T ← pointer_to_member TYPE;
  let M := {| record_name := VISIT_STRUCT_MAKE_MEMBER_NAME NAME;
              helper_S := cur;
              helper_T := T;
              member_ptr := NAME;
              member_name := NAME |} in
  body ← declare (nested_struct M) body;
  L ← VISIT_STRUCT_GET_REGISTERED_MEMBERS body;
  declare (static_function (Append_t L M) Visit_Struct_Get_Visitables__
             (TypeList_size L + 1)) body.

(** [#define END_VISITABLES] *)
Definition END_VISITABLES (body : class_body) : option class_body :=
  L ← VISIT_STRUCT_GET_REGISTERED_MEMBERS body;
  body ← declare (member_typedef (type_list L)
                    Visit_Struct_Registered_Members_List__) body;
  declare (member_typedef intrusive_tag
             Visit_Struct_Visitable_Structure_Tag__) body.

(** ** Structure definitions *)

(** What a structure body is written from: the three macros and ordinary
    data members. *)
Inductive item : Type :=
  | begin_visitables (NAME : string)
  | visitable (TYPE : cpp_type) (NAME : string)
  | end_visitables
  | plain_member (TYPE : cpp_type) (NAME : string).

#[global] Instance item_eq_dec : EqDecision item.
Proof. solve_decision. Defined.

Definition expand (i : item) (body : class_body) : option class_body :=
  match i with
  | begin_visitables NAME => BEGIN_VISITABLES NAME body
  | visitable TYPE NAME => VISITABLE TYPE NAME body
  | end_visitables => END_VISITABLES body
  | plain_member TYPE NAME => declare (data_member TYPE NAME) body
  end.

(** The items of a body are processed in the order they are written. *)
Fixpoint run (items : list item) (body : class_body) : option class_body :=
  match items with
  | [] => Some body
  | i :: items' => body ← expand i body; run items' body
  end.

Definition define (items : list item) : option class_body := run items [].

(** A declaration of a field inside the registration sequence. *)
Inductive field_decl : Type :=
  | visitable_field (TYPE : cpp_type) (NAME : string)
  | plain_field (TYPE : cpp_type) (NAME : string).

Definition field_item (f : field_decl) : item :=
  match f with
  | visitable_field TYPE NAME => visitable TYPE NAME
  | plain_field TYPE NAME => plain_member TYPE NAME
  end.

(** The three-step registration: begin, the field declarations, end. *)
Definition registration (sname : string) (fs : list field_decl)
    : list item :=
  begin_visitables sname :: (field_item <$> fs) ++ [end_visitables].

(** The fields declared with [VISITABLE], in declaration order. *)
Definition visitable_fields (fs : list field_decl)
    : list (cpp_type * string) :=
  omap (λ f, match f with
             | visitable_field TYPE NAME => Some (TYPE, NAME)
             | plain_field _ _ => None
             end) fs.

(** The member record of a field of structure [sname]. *)
Definition descriptor (sname : string) (f : cpp_type * string)
    : member_record :=
  {| record_name := VISIT_STRUCT_MAKE_MEMBER_NAME f.2;
     helper_S := sname;
     helper_T := f.1;
     member_ptr := f.2;
     member_name := f.2 |}.

Definition descriptors (sname : string) (fs : list field_decl)
    : TypeList member_record :=
  descriptor sname <$> visitable_fields fs.

(** ** References and visitors *)

Inductive value_category : Type := lvalue | xvalue.

(** A reference to a structure instance: the object it designates, and how
    the expression that names it is qualified. *)
Record struct_ref : Type := {
  sr_object : nat;
  sr_cv : cv_qualifier;
  sr_cat : value_category
}.

(** A reference to a data member of an object. *)
Record field_ref : Type := {
  fr_object : nat;
  fr_member : string;
  fr_cv : cv_qualifier;
  fr_cat : value_category
}.

#[global] Instance value_category_eq_dec : EqDecision value_category.
Proof. solve_decision. Defined.
#[global] Instance field_ref_eq_dec : EqDecision field_ref.
Proof. solve_decision. Defined.

(** A visitor is called with a member name and a reference to the member;
    what the call does is a transformer of a state [Σ] (the visitor's
    captures, the memory the references point into, ...). *)
Definition visitor_of (Σ : Type) : Type := string → field_ref → Σ → Σ.

Module Import helpers.

(** The three overloads of [member_ptr_helper<S, T, member_ptr>::apply]:
    [static constexpr T & apply(S & s) { return s.*member_ptr; }]
    [static constexpr const T & apply(const S & s) { return s.*member_ptr; }]
    [static constexpr T && apply(S && s) { return std::move(s.*member_ptr); }] *)
Inductive apply_overload : Type :=
  | apply_lvalue
  | apply_const_lvalue
  | apply_rvalue.

(** Reference binding: [S &] binds non-const lvalues, [const S &] binds
    everything, [S &&] binds non-const rvalues. *)
Definition binds (o : apply_overload) (s : struct_ref) : bool :=
  match o, sr_cv s, sr_cat s with
  | apply_lvalue, cv_none, lvalue => true
  | apply_lvalue, _, _ => false
  | apply_const_lvalue, _, _ => true
  | apply_rvalue, cv_none, xvalue => true
  | apply_rvalue, _, _ => false
  end.

(** Among the overloads that bind, the one that adds no [const], and for an
    rvalue the rvalue reference, is the better match. *)
Definition select_apply (s : struct_ref) : apply_overload :=
  if binds apply_lvalue s then apply_lvalue
  else if binds apply_rvalue s then apply_rvalue
  else apply_const_lvalue.

(** The result types are [T &], [const T &] and [T &&], for the object
    type [T] the member is declared with: for a const-qualified [T] all
    three are references to const. *)
Definition member_ptr_helper_apply (T : cpp_type) (member_ptr : string)
    (s : struct_ref) : field_ref :=
  match select_apply s with
  | apply_lvalue =>
      {| fr_object := sr_object s; fr_member := member_ptr;
         fr_cv := type_cv T; fr_cat := lvalue |}
  | apply_const_lvalue =>
      {| fr_object := sr_object s; fr_member := member_ptr;
         fr_cv := cv_const; fr_cat := lvalue |}
  | apply_rvalue =>
      {| fr_object := sr_object s; fr_member := member_ptr;
         fr_cv := type_cv T; fr_cat := xvalue |}
  end.

(** The template argument deduced for a forwarding reference [S &&]: an
    lvalue reference type for an lvalue argument, the object type for an
    rvalue argument. *)
Inductive deduced : Type :=
  | lvalue_reference_to (cv : cv_qualifier)
  | object_type (cv : cv_qualifier).

Definition deduce (s : struct_ref) : deduced :=
  match sr_cat s with
  | lvalue => lvalue_reference_to (sr_cv s)
  | xvalue => object_type (sr_cv s)
  end.

(** [std::forward<S>(structure_instance)] *)
Definition std_forward (S : deduced) (object : nat) : struct_ref :=
  match S with
  | lvalue_reference_to cv =>
      {| sr_object := object; sr_cv := cv; sr_cat := lvalue |}
  | object_type cv =>
      {| sr_object := object; sr_cv := cv; sr_cat := xvalue |}
  end.

(** [member_helper<M>::apply_visitor]:
    [visitor(M::member_name, M::apply(std::forward<S>(structure_instance)));] *)
Definition member_helper_apply_visitor {Σ : Type} (M : member_record)
    (visitor : visitor_of Σ) (structure_instance : struct_ref) : Σ → Σ :=
  let S := deduce structure_instance in
  visitor (member_name M)
    (member_ptr_helper_apply (helper_T M) (member_ptr M)
       (std_forward S (sr_object structure_instance))).

(** [structure_helper<TypeList<Ms...>>::apply_visitor]: the initializers of
    [dummy] are evaluated in the order of the pack, each one a call of
    [member_helper<Ms>::apply_visitor]; the last initializer is the plain
    [0]. *)
Fixpoint structure_helper_apply_visitor {Σ : Type}
    (Ms : TypeList member_record) (visitor : visitor_of Σ)
    (structure_instance : struct_ref) (σ : Σ) : Σ :=
  let S := deduce structure_instance in
  match Ms with
  | [] => σ
  | M :: Ms' =>
      structure_helper_apply_visitor Ms' visitor structure_instance
        (member_helper_apply_visitor M visitor
           (std_forward S (sr_object structure_instance)) σ)
  end.

End helpers.

(** ** Classes as a template sees them *)

Inductive access_specifier : Type := public | protected | private.

#[global] Instance access_specifier_eq_dec : EqDecision access_specifier.
Proof. solve_decision. Defined.

(** A complete class type: its member declarations, each with the access
    in force where it is declared, and its base class, if it has one, with
    the access of the derivation.  One base class at most, no
    using-declarations, no friends. *)
Inductive class_type : Type :=
  | plain_class (members : list (access_specifier * member_decl))
      (* key NAME { members }; *)
  | derived_class (base_access : access_specifier) (Base : class_type)
      (members : list (access_specifier * member_decl)).
      (* key NAME : base_access Base { members }; *)

Inductive class_key : Type := key_struct | key_class.

(** Members and bases are public by default in a [struct], private in a
    [class]. *)
Definition default_access (key : class_key) : access_specifier :=
  match key with
  | key_struct => public
  | key_class => private
  end.

(** [key NAME { body };]: a class without base class whose body has no
    access-specifier.  The macros are expanded in such bodies ([define]). *)
Definition class_of (key : class_key) (body : class_body) : class_type :=
  plain_class ((λ d, (default_access key, d)) <$> body).

(** [struct NAME { body };] *)
Definition struct_of (body : class_body) : class_type :=
  class_of key_struct body.

(** Where a class type is expected, a body [cls] stands for the structure
    [struct_of cls]. *)
Coercion struct_of : class_body >-> class_type.

(** [key NAME : base_access Base { body };] *)
Definition derived_of (key : class_key) (base_access : access_specifier)
    (Base : class_type) (body : class_body) : class_type :=
  derived_class base_access Base ((λ d, (default_access key, d)) <$> body).

(** The first declaration of a name among the members of a class. *)
Fixpoint find_member (name : string)
    (members : list (access_specifier * member_decl))
    : option (access_specifier * member_decl) :=
  match members with
  | [] => None
  | m :: members' =>
      if String.eqb name (decl_name m.2) then Some m
      else find_member name members'
  end.

(** The type a member declaration names for code outside of the class: the
    target of a public typedef, a public nested struct itself. *)
Definition declared_type (m : access_specifier * member_decl)
    : option type_expr :=
  match m with
  | (public, member_typedef target _) => Some target
  | (public, nested_struct M) => Some (named_type (record_name M))
  | _ => None
  end.

(** [typename T::name], written outside of [T] and of its friends.  A
    declaration of the name in the class itself hides those of the base
    class; the name must denote a type and be accessible: a public member
    of the class, or a public member of a public base class.  Otherwise the
    type is ill-formed (in a template argument: a substitution failure). *)
Fixpoint member_type (T : class_type) (name : string) : option type_expr :=
  match T with
  | plain_class members => find_member name members ≫= declared_type
  | derived_class base_access Base members =>
      match find_member name members with
      | Some m => declared_type m
      | None =>
          match base_access with
          | public => member_type Base name
          | _ => None
          end
      end
  end.

(** ** namespace visit_struct::traits *)

Module traits.

(** The partial specialization [visitable<T, enable_if<is_same<
    typename T::Visit_Struct_Visitable_Structure_Tag__,
    detail::intrusive_tag>::value>::type>] is selected when
    [typename T::Visit_Struct_Visitable_Structure_Tag__] is well-formed
    and names [intrusive_tag]. *)
Definition visitable_matches (T : class_type) : bool :=
  match member_type T Visit_Struct_Visitable_Structure_Tag__ with
  | Some intrusive_tag => true
  | _ => false
  end.

(** [static constexpr bool value = true;] of the specialization. *)
Definition visitable_value (T : class_type) : option bool :=
  if visitable_matches T then Some true else None.

(** [visitable<T>::apply]: [structure_helper<typename
    T::Visit_Struct_Registered_Members_List__>::apply_visitor(...)].
    The instance is a [T], or an object of a class derived from [T]
    bound to the [S &&] parameter; [structure_helper] is defined for a
    [TypeList] only. *)
Definition visitable_apply {Σ : Type} (T : class_type)
    (v : visitor_of Σ) (s : struct_ref) (σ : Σ) : option Σ :=
  if visitable_matches T then
    match member_type T Visit_Struct_Registered_Members_List__ with
    | Some (type_list Ms) =>
        Some (structure_helper_apply_visitor Ms v
                (std_forward (deduce s) (sr_object s)) σ)
    | _ => None
    end
  else None.

End traits.

(** Modelled from the spec: the visit entry point and the primary
    [traits::visitable] template are declared in visit_struct.hpp, which is
    not part of the header verified here.  Following the contract of the
    Visitor Dispatcher, [visit] requires the type of the instance to carry
    the visitability tag; a type without it is rejected; a type with it is
    dispatched to [traits::visitable<T>::apply]. *)
Definition visit {Σ : Type} (T : class_type) (s : struct_ref)
    (v : visitor_of Σ) (σ : Σ) : option Σ :=
  if traits.visitable_matches T then traits.visitable_apply T v s σ
  else None.

(** ** Objects in memory *)

(** The memory holding structure instances: the value stored in data
    member [m] of object [o] is at address [(o, m)]. *)
Abbreviation store value := (gmap (nat * string) value).

Definition address_of (r : field_ref) : nat * string :=
  (fr_object r, fr_member r).

Definition read_ref {value : Type} (r : field_ref) (σ : store value)
    : option value :=
  σ !! address_of r.

(** Assignment through a reference; a reference to const does not allow
    it. *)
Definition write_ref {value : Type} (r : field_ref) (v : value)
    (σ : store value) : option (store value) :=
  match fr_cv r with
  | cv_none => Some (<[address_of r := v]> σ)
  | cv_const => None
  end.

(** A visitor that records its calls. *)
Definition record_calls : visitor_of (list (string * field_ref)) :=
  λ name r calls, calls ++ [(name, r)].

(** A visitor that reads each member through the reference it is given and
    emits the name and the value. *)
Definition emit {value : Type} (σ : store value)
    : visitor_of (list (string * option value)) :=
  λ name r out, out ++ [(name, read_ref r σ)].

(** A visitor that assigns [v] through the reference it receives for the
    member called [target] and does nothing for the other members.  Its
    state is the memory, or [None] once an assignment was rejected. *)
Definition assign {value : Type} (target : string) (v : value)
    : visitor_of (option (store value)) :=
  λ name r σ, if String.eqb name target then σ ≫= write_ref r v else σ.

(** ** Vocabulary of the statements *)

(** The definitions below are not part of the header: they name what the
    lemmas talk about (the state of a registration in progress, the calls a
    visit is expected to make, the ways an instance is handed to a visit)
    and fix the structures used as examples. *)

Definition is_function (d : member_decl) : bool :=
  match d with
  | static_function _ _ _ => true
  | _ => false
  end.

(** The names a field declaration introduces besides the overload. *)
Definition declared_names (f : field_decl) : list string :=
  match f with
  | visitable_field _ NAME => [NAME; VISIT_STRUCT_MAKE_MEMBER_NAME NAME]
  | plain_field _ NAME => [NAME]
  end.

(** The names of all declarations a field declaration expands to. *)
Definition expanded_names (f : field_decl) : list string :=
  match f with
  | visitable_field _ NAME =>
      [NAME; VISIT_STRUCT_MAKE_MEMBER_NAME NAME; Visit_Struct_Get_Visitables__]
  | plain_field _ NAME => [NAME]
  end.

Definition begin_names : list string :=
  [VISIT_STRUCT_CURRENT_TYPE; Visit_Struct_Get_Visitables__].

Definition end_names : list string :=
  [Visit_Struct_Registered_Members_List__;
   Visit_Struct_Visitable_Structure_Tag__].

(** The state of a structure body after [BEGIN_VISITABLES(sname)] and the
    field declarations [fs]. *)
Record registering (sname : string) (fs : list field_decl)
    (body : class_body) : Prop := {
  reg_names : decl_name <$> body = begin_names ++ (fs ≫= expanded_names);
  reg_nodup : NoDup (begin_names ++ (fs ≫= declared_names));
  reg_current :
    lookup_typedef VISIT_STRUCT_CURRENT_TYPE body = Some (named_type sname);
  reg_functions :
    ∀ d, d ∈ body → decl_name d = Visit_Struct_Get_Visitables__ →
         is_function d = true;
  reg_ranks :
    (overloads Visit_Struct_Get_Visitables__ body).*1
    = seq 0 (S (length (visitable_fields fs)));
  reg_latest :
    overloads Visit_Struct_Get_Visitables__ body
      !! (length (visitable_fields fs) `min` maxVisitableRank)
    = Some (length (visitable_fields fs) `min` maxVisitableRank,
            take maxVisitableRank (descriptors sname fs));
  reg_bound : length (visitable_fields fs) ≤ S maxVisitableRank
}.

(** Every member typedef of a body is the first declaration of its name:
    the type it names inside the structure is the type the name denotes
    outside of it. *)
Definition typedefs_visible (body : class_body) : Prop :=
  ∀ name t, lookup_typedef name body = Some t →
            member_type (struct_of body) name = Some t.

(** The two typedefs [END_VISITABLES] adds to a body whose registry is
    [Ms]. *)
Definition closing (Ms : TypeList member_record) : class_body :=
  [member_typedef (type_list Ms) Visit_Struct_Registered_Members_List__;
   member_typedef intrusive_tag Visit_Struct_Visitable_Structure_Tag__].

(** The body between the begin marker and the end marker. *)
Definition opened (sname : string) (fs : list field_decl) : list item :=
  begin_visitables sname :: (field_item <$> fs).

(** The calls of a visit, written on the declared fields. *)
Definition calls_on {Σ : Type} (v : visitor_of Σ) (s : struct_ref)
    (fields : list (cpp_type * string)) (σ : Σ) : Σ :=
  foldl (λ σ f, v f.2 (member_ptr_helper_apply f.1 f.2 s) σ) σ fields.

(** The types [int] and [const int]. *)
Definition int : cpp_type := object_of cv_none "int".
Definition const_int : cpp_type := object_of cv_const "int".

(** [struct Point { BEGIN_VISITABLES(Point); VISITABLE(int, x);
    VISITABLE(int, y); END_VISITABLES; };] *)
Definition Point_fields : list field_decl :=
  [visitable_field int "x"; visitable_field int "y"].

Definition Point_class : class_body :=
  Eval cbv in default [] (define (registration "Point" Point_fields)).

(** [Point] before its end marker. *)
Definition Point_open : class_body :=
  Eval cbv in default [] (define (opened "Point" Point_fields)).

(** The instance [p = {x: 3, y: 4}] as object [0]. *)
Definition Point_memory : store nat :=
  <[(0, "x") := 3]> (<[(0, "y") := 4]> ∅).

(** A structure with [n] visitable fields [int f000; int f001; ...]. *)
Definition digit (d : nat) : Ascii.ascii := Ascii.ascii_of_nat (48 + d).

Definition numbered (i : nat) : string :=
  String.append "f"
    (String (digit (i / 100))
       (String (digit (i / 10 mod 10)) (String (digit (i mod 10)) ""))).

Definition Big_fields (n : nat) : list field_decl :=
  (λ i, visitable_field int (numbered i)) <$> seq 0 n.

(** A mutable lvalue naming object [0]. *)
Definition instance0 : struct_ref :=
  {| sr_object := 0; sr_cv := cv_none; sr_cat := lvalue |}.

(** The call a visitor receives for a field of the instance [s]. *)
Definition call_for (s : struct_ref) (f : cpp_type * string)
    : string * field_ref :=
  (f.2, member_ptr_helper_apply f.1 f.2 s).

(** The three ways an instance can be handed to a visit: read-only (a const
    instance, whether named or temporary), mutable (a non-const lvalue),
    and moved-from (a non-const rvalue). *)
Inductive access : Type := read_only | mutable | movable.

Definition access_of (cv : cv_qualifier) (cat : value_category) : access :=
  match cv, cat with
  | cv_const, _ => read_only
  | cv_none, lvalue => mutable
  | cv_none, xvalue => movable
  end.

Definition struct_access (s : struct_ref) : access :=
  access_of (sr_cv s) (sr_cat s).

Definition field_access (r : field_ref) : access :=
  access_of (fr_cv r) (fr_cat r).

(** [struct Twice { BEGIN_VISITABLES(Twice); VISITABLE(int, x);
    VISITABLE(int, x); END_VISITABLES; };] *)
Definition Twice_fields : list field_decl :=
  [visitable_field int "x"; visitable_field int "x"].

(** A tagged structure has a registry, whatever is declared after the end
    marker. *)
Definition closed_class (cls : class_body) : Prop :=
  lookup_typedef Visit_Struct_Visitable_Structure_Tag__ cls
  = Some intrusive_tag ∧
  ∃ Ms, lookup_typedef Visit_Struct_Registered_Members_List__ cls
        = Some (type_list Ms).

(** What the outcome of overload resolution says about the candidates:
    nothing is viable, or the selected candidate is viable and has the
    highest rank among the viable ones. *)
Definition selects {R : Type} (arg : nat) (cands : list (nat * R))
    (res : resolution R) : Prop :=
  match res with
  | no_viable => ∀ c, c ∈ cands → arg < c.1
  | best d L =>
      ∃ r, (r, L) ∈ cands ∧ r ≤ arg ∧ d = arg - r ∧
           ∀ c, c ∈ cands → c.1 ≤ arg → c.1 ≤ r
  | ambiguous _ => False
  end.

(** A member record whose name is the name of the member its accessor
    points to. *)
Definition names_its_member (M : member_record) : Prop :=
  member_ptr M = member_name M ∧
  record_name M = VISIT_STRUCT_MAKE_MEMBER_NAME (member_name M).

(** A member record whose accessor points to a data member of the body,
    declared with the type the record holds. *)
Definition points_into (cls : class_body) (M : member_record) : Prop :=
  data_member (helper_T M) (member_ptr M) ∈ cls.

(** An ordinary member. *)
Definition is_plain (i : item) : Prop :=
  match i with
  | plain_member _ _ => True
  | _ => False
  end.

(** A visitor that assigns [g name] through every reference it receives. *)
Definition assign_all {value : Type} (g : string → value)
    : visitor_of (option (store value)) :=
  λ name r σ, σ ≫= write_ref r (g name).

(** The memory after [g] was stored in the given fields of object [o]. *)
Definition filled {value : Type} (g : string → value) (o : nat)
    (fields : list (cpp_type * string)) (σ : store value) : store value :=
  foldl (λ σ f, <[(o, f.2) := g f.2]> σ) σ fields.

(** A non-const rvalue and a const rvalue naming object [0]. *)
Definition temporary0 : struct_ref :=
  {| sr_object := 0; sr_cv := cv_none; sr_cat := xvalue |}.

Definition const_temporary0 : struct_ref :=
  {| sr_object := 0; sr_cv := cv_const; sr_cat := xvalue |}.

(** [struct Config { BEGIN_VISITABLES(Config); VISITABLE(const int, version);
    VISITABLE(int, level); END_VISITABLES; };] *)
Definition Config_fields : list field_decl :=
  [visitable_field const_int "version"; visitable_field int "level"].

Definition Config_class : class_body :=
  Eval cbv in default [] (define (registration "Config" Config_fields)).

(** [struct Holder { BEGIN_VISITABLES(Holder); VISITABLE(int &, target);
    END_VISITABLES; };] *)
Definition Holder_fields : list field_decl :=
  [visitable_field (reference_to cv_none "int") "target"].

(** [struct Point3 : Point { int z; };] *)
Definition Point3 : class_type :=
  derived_of key_struct public Point_class [data_member int "z"].

(** [class Sealed { BEGIN_VISITABLES(Sealed); VISITABLE(int, x);
    END_VISITABLES; };] *)
Definition Sealed_fields : list field_decl := [visitable_field int "x"].

Definition Sealed_body : class_body :=
  Eval cbv in default [] (define (registration "Sealed" Sealed_fields)).

Definition Sealed : class_type := class_of key_class Sealed_body.

(** A read-only lvalue naming object [0]. *)
Definition const_instance0 : struct_ref :=
  {| sr_object := 0; sr_cv := cv_const; sr_cat := lvalue |}.

(** [Point] with a further field declared after its end marker. *)
Definition Point_then_z : list item :=
  registration "Point" Point_fields ++ [visitable int "z"].

Definition Point_then_z_class : class_body :=
  Eval cbv in default [] (define Point_then_z).

(** [Point] with an ordinary member between its two fields. *)
Definition Mixed_fields : list field_decl :=
  [visitable_field int "x"; plain_field int "hidden";
   visitable_field int "y"].

Definition Mixed_class : class_body :=
  Eval cbv in default [] (define (registration "Mixed" Mixed_fields)).

(** The begin marker. *)
Definition is_begin (i : item) : Prop :=
  match i with
  | begin_visitables _ => True
  | _ => False
  end.

(** At most one item of a definition satisfies [Q]. *)
Definition at_most_once (Q : item → Prop) (items : list item) : Prop :=
  ∀ i j a b, items !! i = Some a → items !! j = Some b → Q a → Q b → i = j.

(** [Point] with its first field only. *)
Definition Point_x_fields : list field_decl := [visitable_field int "x"].

Definition Point_x_class : class_body :=
  Eval cbv in default [] (define (registration "Point" Point_x_fields)).

(** The name of a field of a registration. *)
Definition field_name (f : field_decl) : string :=
  match f with
  | visitable_field _ NAME => NAME
  | plain_field _ NAME => NAME
  end.

(** * Properties *)

(** ** The ordered type registry *)

Section registry.
Context {A : Type}.
Implicit Types (Ts : TypeList A) (T : A).

Lemma Append_app Ts T : Append Ts T = Ts ++ [T].
Proof. induction Ts as [|T' Ts IH]; simpl; [done | by rewrite <- IH]. Qed.

Lemma Append_size Ts T : TypeList_size (Append Ts T) = TypeList_size Ts + 1.
Proof. unfold TypeList_size. rewrite Append_app, length_app. done. Qed.

Lemma Append_lookup_old Ts T i :
  i < TypeList_size Ts → Append Ts T !! i = Ts !! i.
Proof. intros Hi. rewrite Append_app. by apply lookup_app_l. Qed.

Lemma Append_lookup_new Ts T : Append Ts T !! TypeList_size Ts = Some T.
Proof.
  rewrite Append_app. unfold TypeList_size.
  rewrite lookup_app_r by lia. by rewrite Nat.sub_diag.
Qed.
End registry.

(** ** Overload resolution on [Rank] *)

Lemma index_of_Rank_bases (arg param : nat) :
  index_of param (arg :: Rank_bases arg)
  = if decide (param ≤ arg) then Some (arg - param) else None.
Proof.
  induction arg as [|n IH].
  - simpl. destruct (Nat.eqb_spec param 0) as [->|Hne].
    + done.
    + case_decide; [lia | done].
  - change (Rank_bases (S n)) with (n :: Rank_bases n).
    change (index_of param (S n :: n :: Rank_bases n))
      with (if Nat.eqb param (S n) then Some 0
            else S <$> index_of param (n :: Rank_bases n)).
    rewrite IH. destruct (Nat.eqb_spec param (S n)) as [->|Hne].
    + rewrite decide_True by lia. f_equal. lia.
    + repeat case_decide; simpl; try lia; try done. f_equal. lia.
Qed.

Lemma conversion_depth_spec (arg param : nat) :
  conversion_depth arg param
  = if decide (param ≤ arg) then Some (arg - param) else None.
Proof. apply index_of_Rank_bases. Qed.

Section resolution.
Context {R : Type}.
Implicit Types (cands olds news : list (nat * R)).

Lemma consider_not_viable arg news :
  (∀ c, c ∈ news → arg < c.1) →
  foldr (consider arg) no_viable news = no_viable.
Proof.
  induction news as [|c news IH]; intros Hnews; [done|].
  simpl. rewrite IH by (intros; apply Hnews; by right).
  unfold consider. rewrite conversion_depth_spec.
  rewrite decide_False; [done|].
  specialize (Hnews c (list_elem_of_here _ _)). lia.
Qed.

Lemma consider_most_derived arg olds r (L : R) news :
  r ≤ arg →
  (∀ c, c ∈ olds → c.1 < r) →
  (∀ c, c ∈ news → arg < c.1) →
  foldr (consider arg) no_viable (olds ++ (r, L) :: news)
  = best (arg - r) L.
Proof.
  intros Hr Holds Hnews. induction olds as [|c olds IH].
  - simpl. rewrite consider_not_viable by done.
    unfold consider. simpl. rewrite conversion_depth_spec.
    by rewrite decide_True.
  - simpl. rewrite IH by (intros; apply Holds; by right).
    specialize (Holds c (list_elem_of_here _ _)).
    unfold consider. rewrite conversion_depth_spec.
    rewrite decide_True by lia.
    destruct (Nat.ltb_spec (arg - c.1) (arg - r)); [lia|].
    destruct (Nat.ltb_spec (arg - r) (arg - c.1)); [done | lia].
Qed.

Lemma overload_resolution_most_derived arg olds r (L : R) news :
  r ≤ arg →
  (∀ c, c ∈ olds → c.1 < r) →
  (∀ c, c ∈ news → arg < c.1) →
  overload_resolution arg (olds ++ (r, L) :: news) = Some L.
Proof.
  intros. unfold overload_resolution.
  by rewrite consider_most_derived.
Qed.

(** When the declared ranks are [0, 1, ..., k] in this order, the call
    with a [Rank<arg>] argument selects the overload of rank
    [min k arg]. *)
Lemma overload_resolution_seq arg cands k (L : R) :
  cands.*1 = seq 0 (S k) →
  cands !! (k `min` arg) = Some (k `min` arg, L) →
  overload_resolution arg cands = Some L.
Proof.
  intros Hranks Hat.
  rewrite <- (take_drop_middle cands _ _ Hat).
  assert (Hrank : ∀ i c, cands !! i = Some c → c.1 = i).
  { intros i c Hc.
    assert (cands.*1 !! i = Some c.1) as Hi
      by (by rewrite list_lookup_fmap, Hc).
    rewrite Hranks in Hi. apply lookup_seq in Hi. lia. }
  apply overload_resolution_most_derived.
  - lia.
  - intros c [i Hc]%list_elem_of_lookup.
    apply lookup_take_Some in Hc as [Hc Hi].
    apply Hrank in Hc. lia.
  - intros c [i Hc]%list_elem_of_lookup.
    rewrite lookup_drop in Hc.
    assert (S (k `min` arg) + i < S k).
    { apply lookup_lt_Some in Hc.
      rewrite <- (length_fmap fst), Hranks, length_seq in Hc. done. }
    apply Hrank in Hc. lia.
Qed.
End resolution.

(** ** Member declarations *)

Lemma existsb_false {A : Type} (f : A → bool) (l : list A) :
  existsb f l = false ↔ ∀ x, x ∈ l → f x = false.
Proof.
  induction l as [|y l IH]; simpl.
  - split; [|done]. intros _ x Hx. by apply elem_of_nil in Hx.
  - rewrite orb_false_iff, IH. split.
    + intros [Hy Hl] x [->|Hx]%elem_of_cons; auto.
    + intros H. split; [apply H; by left|]. intros x Hx. apply H. by right.
Qed.

Lemma declare_Some d body body' :
  declare d body = Some body' → body' = body ++ [d].
Proof. unfold declare. case_match; congruence. Qed.

Lemma declare_Some_fresh d body body' :
  is_function d = false →
  declare d body = Some body' → decl_name d ∉ decl_name <$> body.
Proof.
  unfold declare. intros Hd H. case_match eqn:He; [done|].
  rewrite existsb_false in He.
  intros (old & Hname & Hold)%list_elem_of_fmap.
  specialize (He old Hold). unfold redeclares in He.
  rewrite Hname, String.eqb_refl in He. by destruct d, old.
Qed.

Lemma declare_fresh d body :
  decl_name d ∉ decl_name <$> body → declare d body = Some (body ++ [d]).
Proof.
  intros Hfresh. unfold declare.
  replace (existsb (redeclares d) body) with false; [done|].
  symmetry. apply existsb_false. intros old Hold. unfold redeclares.
  destruct (String.eqb_spec (decl_name d) (decl_name old)) as [Heq|]; [|done].
  destruct Hfresh. rewrite Heq. by apply list_elem_of_fmap_2.
Qed.

Lemma overloads_app f b1 b2 :
  overloads f (b1 ++ b2) = overloads f b1 ++ overloads f b2.
Proof.
  induction b1 as [|d b1 IH]; [done|].
  destruct d; simpl; try done. case_match; simpl; by rewrite IH.
Qed.

Lemma elem_of_overloads f r ret body :
  (r, ret) ∈ overloads f body ↔ static_function ret f r ∈ body.
Proof.
  induction body as [|d body IH]; simpl.
  - split; intros H; by apply elem_of_nil in H.
  - destruct d as [| | |ret' f' r']; rewrite ?elem_of_cons, <- ?IH;
      try (split; [by right | by intros [?|?]]).
    destruct (String.eqb_spec f f') as [<-|Hne].
    + rewrite elem_of_cons. split; (intros [?|?]; [left|by right]);
        congruence.
    + rewrite IH. split; [by right|]. intros [?|?]; [congruence|done].
Qed.

Lemma declare_overload_Some ret f r body body' :
  declare (static_function ret f r) body = Some body' →
  r ∉ (overloads f body).*1.
Proof.
  unfold declare. intros H. case_match eqn:He; [done|].
  rewrite existsb_false in He.
  intros ([r' ret'] & Hr & Hin)%list_elem_of_fmap. simpl in Hr. subst r'.
  apply elem_of_overloads in Hin. specialize (He _ Hin).
  unfold redeclares in He. simpl in He.
  by rewrite String.eqb_refl, Nat.eqb_refl in He.
Qed.

Lemma declare_overload ret f r body :
  (∀ old, old ∈ body → decl_name old = f → is_function old = true) →
  r ∉ (overloads f body).*1 →
  declare (static_function ret f r) body
  = Some (body ++ [static_function ret f r]).
Proof.
  intros Hfun Hr. unfold declare.
  replace (existsb (redeclares (static_function ret f r)) body) with false;
    [done|].
  symmetry. apply existsb_false. intros old Hold. unfold redeclares. simpl.
  destruct (String.eqb_spec f (decl_name old)) as [Heq|]; [|done].
  specialize (Hfun old Hold (eq_sym Heq)).
  destruct old as [| | |ret' f' r']; try done. simpl in *. subst f'.
  destruct (Nat.eqb_spec r r') as [<-|]; [|done].
  destruct Hr. apply list_elem_of_fmap. exists (r, ret').
  split; [done|]. by apply elem_of_overloads.
Qed.

Lemma lookup_typedef_app alias b1 b2 :
  lookup_typedef alias (b1 ++ b2)
  = match lookup_typedef alias b1 with
    | Some t => Some t
    | None => lookup_typedef alias b2
    end.
Proof.
  induction b1 as [|d b1 IH]; [done|].
  destruct d as [| target a | |]; simpl; try apply IH.
  destruct (String.eqb alias a); [done | apply IH].
Qed.

Lemma lookup_typedef_fresh alias body :
  alias ∉ decl_name <$> body → lookup_typedef alias body = None.
Proof.
  induction body as [|d body IH]; [done|].
  rewrite fmap_cons, not_elem_of_cons. intros [Hd Hbody].
  destruct d as [| target a | |]; simpl in *; auto.
  destruct (String.eqb_spec alias a); [congruence | auto].
Qed.

(** ** The accumulator during a registration *)

Lemma visitable_fields_app fs1 fs2 :
  visitable_fields (fs1 ++ fs2) = visitable_fields fs1 ++ visitable_fields fs2.
Proof. apply omap_app. Qed.

Lemma descriptors_app sname fs1 fs2 :
  descriptors sname (fs1 ++ fs2)
  = descriptors sname fs1 ++ descriptors sname fs2.
Proof. unfold descriptors. by rewrite visitable_fields_app, fmap_app. Qed.

Lemma descriptors_length sname fs :
  length (descriptors sname fs) = length (visitable_fields fs).
Proof. unfold descriptors. by rewrite length_fmap. Qed.

Lemma elem_of_expanded_names x fs :
  x ∈ fs ≫= expanded_names ↔
  x ∈ fs ≫= declared_names ∨
  (x = Visit_Struct_Get_Visitables__ ∧ visitable_fields fs ≠ []).
Proof.
  induction fs as [|f fs IH].
  - split; [by intros ?%elem_of_nil|]. intros [?%elem_of_nil|[_ ?]]; done.
  - rewrite !bind_cons, !elem_of_app, IH.
    destruct f as [TYPE NAME|TYPE NAME]; simpl;
      rewrite ?elem_of_cons, ?elem_of_nil; intuition (subst; auto);
      right; split; congruence.
Qed.

(** [BEGIN_VISITABLES] opens a registration in an empty body. *)
Lemma registering_begin sname :
  ∃ body, BEGIN_VISITABLES sname [] = Some body ∧ registering sname [] body.
Proof.
  eexists. split; [reflexivity|].
  split; simpl; try done.
  - refine (bool_decide_unpack _ _). by vm_compute.
  - intros d. rewrite !elem_of_cons, elem_of_nil.
    intros [->|[->|[]]]; [|done]. by vm_compute.
  - lia.
Qed.

(** The query between two declarations. *)
Lemma registering_query sname fs body :
  registering sname fs body →
  VISIT_STRUCT_GET_REGISTERED_MEMBERS body
  = Some (take maxVisitableRank (descriptors sname fs)).
Proof.
  intros Inv. unfold VISIT_STRUCT_GET_REGISTERED_MEMBERS.
  eapply overload_resolution_seq; [apply Inv | apply Inv].
Qed.

Lemma registering_plain sname fs body TYPE NAME body' :
  registering sname fs body →
  declare (data_member TYPE NAME) body = Some body' →
  registering sname (fs ++ [plain_field TYPE NAME]) body'.
Proof.
  intros Inv H.
  pose proof (declare_Some_fresh (data_member TYPE NAME) _ _ eq_refl H)
    as Hfresh.
  apply declare_Some in H as ->.
  rewrite (reg_names _ _ _ Inv) in Hfresh.
  destruct Inv as [Hn Hd Hc Hf Hr Hl Hb].
  split.
  - rewrite fmap_app, Hn, bind_app, app_assoc. by rewrite bind_singleton.
  - rewrite bind_app, bind_singleton, app_assoc.
    apply NoDup_app. split; [done|]. split; [|apply NoDup_singleton].
    intros x Hx ->%list_elem_of_singleton. apply Hfresh.
    apply elem_of_app in Hx as [Hx|Hx]; apply elem_of_app; [by left|].
    right. apply elem_of_expanded_names. by left.
  - by rewrite lookup_typedef_app, Hc.
  - intros d [Hd'| ->%list_elem_of_singleton]%elem_of_app; [by apply Hf|].
    simpl. intros ->. destruct Hfresh. apply elem_of_app. left. right.
    by left.
  - rewrite overloads_app, visitable_fields_app. simpl.
    by rewrite !app_nil_r.
  - rewrite overloads_app, visitable_fields_app, descriptors_app. simpl.
    by rewrite !app_nil_r.
  - rewrite visitable_fields_app. simpl. by rewrite app_nil_r.
Qed.

Lemma MAKE_MEMBER_NAME_neq NAME : VISIT_STRUCT_MAKE_MEMBER_NAME NAME ≠ NAME.
Proof.
  intros H. apply (f_equal String.length) in H.
  unfold VISIT_STRUCT_MAKE_MEMBER_NAME in H. simpl in H.
  change (String.append EmptyString NAME) with NAME in H. lia.
Qed.

Lemma MAKE_MEMBER_NAME_not_overload NAME :
  VISIT_STRUCT_MAKE_MEMBER_NAME NAME ≠ Visit_Struct_Get_Visitables__.
Proof. by intros [=]. Qed.

#[local] Arguments Nat.min : simpl never.

Lemma pointer_to_member_Some T T' :
  pointer_to_member T = Some T' → T' = T ∧ ∃ cv n, T = object_of cv n.
Proof. destruct T; intros [= <-]; eauto. Qed.

Lemma registering_visitable sname fs body TYPE NAME body' :
  registering sname fs body →
  VISITABLE TYPE NAME body = Some body' →
  registering sname (fs ++ [visitable_field TYPE NAME]) body'.
Proof.
  intros Inv H. unfold VISITABLE in H.
  destruct (declare (data_member TYPE NAME) body) as [b1|] eqn:H1;
    simpl in H; [|done].
  pose proof (declare_Some_fresh (data_member TYPE NAME) _ _ eq_refl H1)
    as Hfresh1.
  apply declare_Some in H1 as ->.
  rewrite lookup_typedef_app, (reg_current _ _ _ Inv) in H. simpl in H.
  destruct (pointer_to_member TYPE) as [T|] eqn:HT; simpl in H; [|done].
  apply pointer_to_member_Some in HT as [-> _].
  change (Build_member_record (VISIT_STRUCT_MAKE_MEMBER_NAME NAME) sname
            TYPE NAME NAME)
    with (descriptor sname (TYPE, NAME)) in H.
  set (M := descriptor sname (TYPE, NAME)) in *.
  destruct (declare (nested_struct M) _) as [b2|] eqn:H2; simpl in H; [|done].
  pose proof (declare_Some_fresh (nested_struct M) _ _ eq_refl H2) as Hfresh2.
  apply declare_Some in H2 as ->.
  unfold VISIT_STRUCT_GET_REGISTERED_MEMBERS in H.
  rewrite !overloads_app in H. simpl in H. rewrite !app_nil_r in H.
  fold (VISIT_STRUCT_GET_REGISTERED_MEMBERS body) in H.
  rewrite (registering_query _ _ _ Inv) in H. simpl in H.
  pose proof (declare_overload_Some _ _ _ _ _ H) as Hrank.
  apply declare_Some in H as ->.
  rewrite !overloads_app in Hrank. simpl in Hrank.
  rewrite !app_nil_r, (reg_ranks _ _ _ Inv), elem_of_seq in Hrank.
  rewrite (reg_names _ _ _ Inv) in Hfresh1.
  rewrite fmap_app, (reg_names _ _ _ Inv) in Hfresh2.
  destruct Inv as [Hn Hd Hc Hf Hr Hl Hb].
  unfold TypeList_size, Append_t in *.
  rewrite Append_app, length_take, descriptors_length in *.
  assert (Hlen : length (visitable_fields (fs ++ [visitable_field TYPE NAME]))
                 = S (length (visitable_fields fs))).
  { rewrite visitable_fields_app, length_app. simpl. lia. }
  assert (Hk : length (visitable_fields fs) ≤ maxVisitableRank) by lia.
  split.
  - rewrite !fmap_app, Hn, bind_app, bind_singleton. simpl.
    by rewrite <- !app_assoc.
  - rewrite bind_app, bind_singleton, app_assoc.
    apply NoDup_app. split; [done|]. split.
    + intros x Hx Hx'.
      assert (x ∈ begin_names ++ fs ≫= expanded_names) as Hx''.
      { apply elem_of_app in Hx as [Hx|Hx]; apply elem_of_app; [by left|].
        right. apply elem_of_expanded_names. by left. }
      simpl in Hx'. rewrite !elem_of_cons, elem_of_nil in Hx'.
      destruct Hx' as [->|[->|[]]]; [done|].
      apply Hfresh2. apply elem_of_app. by left.
    + simpl. apply NoDup_cons. split; [|apply NoDup_singleton].
      intros Heq%list_elem_of_singleton.
      by apply (MAKE_MEMBER_NAME_neq NAME).
  - by rewrite !lookup_typedef_app, Hc.
  - intros d. rewrite !elem_of_app, !list_elem_of_singleton.
    intros [[[Hd'| ->]| ->]| ->]; simpl; [by apply Hf| | |done].
    + intros ->. destruct Hfresh1. apply elem_of_app. left. right. by left.
    + by intros ?%MAKE_MEMBER_NAME_not_overload.
  - rewrite Hlen, (seq_S (S _)), <- Hr, !overloads_app, fmap_app. simpl.
    rewrite !app_nil_r. do 2 f_equal. lia.
  - rewrite !overloads_app. simpl. rewrite !app_nil_r, Hlen, descriptors_app.
    change (descriptors sname [visitable_field TYPE NAME]) with [M].
    assert (Hsize : length (overloads Visit_Struct_Get_Visitables__ body)
                    = S (length (visitable_fields fs))).
    { by rewrite <- (length_fmap fst), Hr, length_seq. }
    destruct (decide (length (visitable_fields fs) = maxVisitableRank))
      as [Hfull|Hroom].
    + rewrite lookup_app_l by lia.
      rewrite take_app_le by (rewrite descriptors_length; lia).
      replace (S (length (visitable_fields fs)) `min` maxVisitableRank)
        with (length (visitable_fields fs) `min` maxVisitableRank) by lia.
      done.
    + rewrite lookup_app_r by lia.
      replace (take maxVisitableRank (descriptors sname fs))
        with (descriptors sname fs)
        by (symmetry; apply take_ge; rewrite descriptors_length; lia).
      rewrite take_ge by (rewrite length_app, descriptors_length; simpl; lia).
      replace (_ - _) with 0 by lia. simpl. do 2 f_equal. lia.
  - lia.
Qed.

Lemma registering_step sname fs body f body' :
  registering sname fs body →
  expand (field_item f) body = Some body' →
  registering sname (fs ++ [f]) body'.
Proof.
  destruct f; simpl; eauto using registering_visitable, registering_plain.
Qed.

Lemma run_app items1 items2 body :
  run (items1 ++ items2) body = run items1 body ≫= run items2.
Proof.
  revert body. induction items1 as [|i items1 IH]; intros body; [done|].
  simpl. destruct (expand i body); simpl; [apply IH | done].
Qed.

Lemma registering_run sname fs0 body0 fs body :
  registering sname fs0 body0 →
  run (field_item <$> fs) body0 = Some body →
  registering sname (fs0 ++ fs) body.
Proof.
  revert fs0 body0. induction fs as [|f fs IH]; intros fs0 body0 Inv H.
  - simpl in H. rewrite app_nil_r. congruence.
  - rewrite fmap_cons in H. simpl in H.
    destruct (expand (field_item f) body0) as [body1|] eqn:H1; [|done].
    simpl in H. rewrite (cons_middle f), app_assoc.
    eapply IH; [|done]. by eapply registering_step.
Qed.

(** A name that none of the declarations so far introduces is free. *)
Lemma registering_fresh sname fs body x :
  registering sname fs body →
  x ∉ begin_names ++ (fs ≫= declared_names) →
  x ∉ decl_name <$> body.
Proof.
  intros Inv Hx. rewrite (reg_names _ _ _ Inv).
  intros [Hin|Hin]%elem_of_app; apply Hx, elem_of_app; [by left|].
  apply elem_of_expanded_names in Hin as [Hin|[-> _]]; [by right|].
  left. right. by left.
Qed.

(** ** Member types of a structure *)

Lemma find_member_app name m1 m2 :
  find_member name (m1 ++ m2)
  = match find_member name m1 with
    | Some m => Some m
    | None => find_member name m2
    end.
Proof.
  induction m1 as [|m m1 IH]; [done|]. simpl.
  destruct (String.eqb name (decl_name m.2)); [done | apply IH].
Qed.

Lemma find_member_fresh name a body :
  name ∉ decl_name <$> body →
  find_member name ((λ d, (a, d)) <$> body) = None.
Proof.
  induction body as [|d body IH]; [done|].
  rewrite fmap_cons, not_elem_of_cons. intros [Hd Hbody]. simpl.
  destruct (String.eqb_spec name (decl_name d)); [congruence | auto].
Qed.

(** A type named through a structure, other than one of its nested
    structs, is a typedef of its body. *)
Lemma member_type_lookup body name t :
  member_type (struct_of body) name = Some t →
  (∀ n, t ≠ named_type n) →
  lookup_typedef name body = Some t.
Proof.
  unfold struct_of, class_of. simpl. intros H Ht.
  induction body as [|d body IH]; [done|].
  simpl in H. destruct (String.eqb_spec name (decl_name d)) as [->|Hne].
  - destruct d as [| target a | M |]; simpl in *; try done.
    + injection H as ->. by rewrite String.eqb_refl.
    + injection H as <-. by destruct (Ht (record_name M)).
  - destruct d as [| target a | |]; simpl in *; auto.
    destruct (String.eqb_spec name a); [congruence | auto].
Qed.

Lemma declare_typedefs_visible d body body' :
  typedefs_visible body → declare d body = Some body' →
  typedefs_visible body'.
Proof.
  intros Hvis H name t Ht.
  assert (Hfresh : is_function d = false → decl_name d ∉ decl_name <$> body).
  { intros Hd. by apply (declare_Some_fresh d _ _ Hd H). }
  apply declare_Some in H as ->.
  unfold struct_of, class_of. simpl. rewrite fmap_app, find_member_app.
  rewrite lookup_typedef_app in Ht.
  destruct (lookup_typedef name body) as [t'|] eqn:Hbody.
  - injection Ht as ->. specialize (Hvis _ _ Hbody).
    unfold struct_of, class_of in Hvis. simpl in Hvis.
    by destruct (find_member name _) as [m|].
  - destruct d as [| target a | |]; simpl in Ht; try done.
    destruct (String.eqb_spec name a) as [->|]; [|done]. injection Ht as ->.
    rewrite find_member_fresh by by apply Hfresh.
    simpl. by rewrite String.eqb_refl.
Qed.

Lemma expand_typedefs_visible i body body' :
  typedefs_visible body → expand i body = Some body' →
  typedefs_visible body'.
Proof.
  intros Hvis H. destruct i as [NAME|TYPE NAME| |TYPE NAME]; simpl in H.
  - unfold BEGIN_VISITABLES in H.
    destruct (declare _ body) as [b1|] eqn:H1; simpl in H; [|done].
    eauto using declare_typedefs_visible.
  - unfold VISITABLE in H.
    destruct (declare _ body) as [b1|] eqn:H1; simpl in H; [|done].
    destruct (lookup_typedef _ _) as [[cur| |]|]; simpl in H; try done.
    destruct (pointer_to_member _) as [T|]; simpl in H; [|done].
    destruct (declare (nested_struct _) _) as [b2|] eqn:H2; simpl in H;
      [|done].
    destruct (VISIT_STRUCT_GET_REGISTERED_MEMBERS _) as [L|]; simpl in H;
      [|done].
    eauto using declare_typedefs_visible.
  - unfold END_VISITABLES in H.
    destruct (VISIT_STRUCT_GET_REGISTERED_MEMBERS _) as [L|]; simpl in H;
      [|done].
    destruct (declare _ body) as [b1|] eqn:H1; simpl in H; [|done].
    eauto using declare_typedefs_visible.
  - eauto using declare_typedefs_visible.
Qed.

Lemma run_typedefs_visible items body cls :
  typedefs_visible body → run items body = Some cls → typedefs_visible cls.
Proof.
  revert body. induction items as [|i items IH]; intros body Hvis H.
  - simpl in H. by injection H as <-.
  - simpl in H. destruct (expand i body) as [b1|] eqn:H1; simpl in H; [|done].
    eauto using expand_typedefs_visible.
Qed.

(** In a structure written with the macros a member typedef names its
    type outside of the structure as well. *)
Lemma define_member_type items cls name t :
  define items = Some cls →
  lookup_typedef name cls = Some t →
  member_type cls name = Some t.
Proof.
  intros H. by apply (run_typedefs_visible items [] cls).
Qed.

Lemma define_visitable_matches items cls :
  define items = Some cls →
  traits.visitable_matches cls = true
  ↔ lookup_typedef Visit_Struct_Visitable_Structure_Tag__ cls
    = Some intrusive_tag.
Proof.
  intros H. unfold traits.visitable_matches. split.
  - destruct (member_type cls _) as [[| |]|] eqn:Ht; try done.
    intros _. by apply member_type_lookup.
  - intros Ht. by rewrite (define_member_type _ _ _ _ H Ht).
Qed.

(** ** Closing a registration *)

Lemma registering_end sname fs body cls :
  registering sname fs body →
  END_VISITABLES body = Some cls →
  cls = (body ++ closing (take maxVisitableRank (descriptors sname fs))) ∧
  (Visit_Struct_Registered_Members_List__ ∉ decl_name <$> body) ∧
  (Visit_Struct_Visitable_Structure_Tag__ ∉ decl_name <$> body).
Proof.
  intros Inv H. unfold END_VISITABLES in H.
  rewrite (registering_query _ _ _ Inv) in H. simpl in H.
  destruct (declare _ body) as [b1|] eqn:H1; simpl in H; [|done].
  pose proof (declare_Some_fresh (member_typedef _ _) _ _ eq_refl H1) as Hf1.
  apply declare_Some in H1 as ->.
  pose proof (declare_Some_fresh (member_typedef _ _) _ _ eq_refl H) as Hf2.
  apply declare_Some in H as ->. simpl in *.
  split; [by rewrite <- app_assoc|]. split; [done|].
  intros Hin. apply Hf2. rewrite fmap_app. apply elem_of_app. by left.
Qed.

Lemma closing_lookup_list body Ms :
  Visit_Struct_Registered_Members_List__ ∉ decl_name <$> body →
  lookup_typedef Visit_Struct_Registered_Members_List__ (body ++ closing Ms)
  = Some (type_list Ms).
Proof.
  intros Hfresh. by rewrite lookup_typedef_app, lookup_typedef_fresh.
Qed.

Lemma closing_lookup_tag body Ms :
  Visit_Struct_Visitable_Structure_Tag__ ∉ decl_name <$> body →
  lookup_typedef Visit_Struct_Visitable_Structure_Tag__ (body ++ closing Ms)
  = Some intrusive_tag.
Proof.
  intros Hfresh. by rewrite lookup_typedef_app, lookup_typedef_fresh.
Qed.

Lemma registration_opened sname fs :
  registration sname fs = opened sname fs ++ [end_visitables].
Proof. done. Qed.

Lemma opened_registering sname fs body :
  define (opened sname fs) = Some body → registering sname fs body.
Proof.
  unfold define, opened. cbn [run expand].
  destruct (registering_begin sname) as (body0 & -> & Inv0).
  apply (registering_run sname [] body0 fs body Inv0).
Qed.

(** What an accepted three-step registration leaves in the structure. *)
Lemma registration_closed sname fs cls :
  define (registration sname fs) = Some cls →
  ∃ body,
    define (opened sname fs) = Some body ∧
    registering sname fs body ∧
    cls = (body ++ closing (take maxVisitableRank (descriptors sname fs))) ∧
    lookup_typedef Visit_Struct_Registered_Members_List__ cls
    = Some (type_list (take maxVisitableRank (descriptors sname fs))) ∧
    traits.visitable_matches cls = true.
Proof.
  intros Hdef. pose proof Hdef as Hcls. unfold define in Hcls.
  rewrite registration_opened, run_app in Hcls.
  destruct (run (opened sname fs) []) as [body|] eqn:Hbody; simpl in Hcls;
    [|done].
  destruct (END_VISITABLES body) as [cls'|] eqn:Hend; simpl in Hcls; [|done].
  injection Hcls as ->. exists body.
  pose proof (opened_registering _ _ _ Hbody) as Inv.
  destruct (registering_end _ _ _ _ Inv Hend) as (Hcls & Hlist & Htag).
  split_and!; try done.
  - rewrite Hcls. by apply closing_lookup_list.
  - apply (define_visitable_matches _ _ Hdef). rewrite Hcls.
    by apply closing_lookup_tag.
Qed.

(** ** Which registrations are accepted *)

Lemma accepted_visitable sname fs body TYPE NAME :
  registering sname fs body →
  NAME ∉ begin_names ++ (fs ≫= declared_names) →
  VISIT_STRUCT_MAKE_MEMBER_NAME NAME ∉ begin_names ++ (fs ≫= declared_names) →
  length (visitable_fields fs) ≤ maxVisitableRank →
  is_reference TYPE = false →
  is_Some (VISITABLE TYPE NAME body).
Proof.
  intros Inv HNAME HMAKE Hk Hobj. unfold VISITABLE.
  rewrite declare_fresh by by eapply registering_fresh. simpl.
  rewrite lookup_typedef_app, (reg_current _ _ _ Inv). simpl.
  destruct TYPE as [cv n|cv n]; [simpl|done].
  rewrite declare_fresh; last first.
  { rewrite fmap_app. intros [Hin| Hin%list_elem_of_singleton]%elem_of_app.
    - by eapply registering_fresh.
    - by apply (MAKE_MEMBER_NAME_neq NAME). }
  simpl. unfold VISIT_STRUCT_GET_REGISTERED_MEMBERS.
  rewrite !overloads_app. simpl. rewrite !app_nil_r.
  fold (VISIT_STRUCT_GET_REGISTERED_MEMBERS body).
  rewrite (registering_query _ _ _ Inv). simpl.
  rewrite declare_overload; [done| |].
  - intros d. rewrite !elem_of_app, !list_elem_of_singleton.
    intros [[Hd| ->]| ->]; simpl; [by apply (reg_functions _ _ _ Inv)| |].
    + intros ->. destruct HNAME. apply elem_of_app. left. right. by left.
    + by intros ?%MAKE_MEMBER_NAME_not_overload.
  - rewrite !overloads_app. simpl.
    rewrite !app_nil_r, (reg_ranks _ _ _ Inv), elem_of_seq.
    unfold TypeList_size. rewrite length_take, descriptors_length. lia.
Qed.

Lemma accepted_field sname fs body f :
  registering sname fs body →
  NoDup (begin_names ++ ((fs ++ [f]) ≫= declared_names)) →
  length (visitable_fields (fs ++ [f])) ≤ S maxVisitableRank →
  Forall (λ f, is_reference f.1 = false) (visitable_fields [f]) →
  is_Some (expand (field_item f) body).
Proof.
  intros Inv Hnodup Hlen Hobj.
  rewrite bind_app, bind_singleton, app_assoc in Hnodup.
  apply NoDup_app in Hnodup as (_ & Hdisj & Hf).
  rewrite visitable_fields_app, length_app in Hlen.
  destruct f as [TYPE NAME|TYPE NAME]; simpl in *.
  - apply (accepted_visitable sname fs); [done| | |lia|].
    + intros Hin. apply (Hdisj _ Hin). by left.
    + intros Hin. apply (Hdisj _ Hin). right. by left.
    + by apply Forall_cons in Hobj as [? _].
  - rewrite declare_fresh; [done|]. eapply registering_fresh; [done|].
    intros Hin. apply (Hdisj _ Hin). by left.
Qed.

Lemma accepted_run sname fs0 body0 fs :
  registering sname fs0 body0 →
  NoDup (begin_names ++ ((fs0 ++ fs) ≫= declared_names)) →
  length (visitable_fields (fs0 ++ fs)) ≤ S maxVisitableRank →
  Forall (λ f, is_reference f.1 = false) (visitable_fields fs) →
  is_Some (run (field_item <$> fs) body0).
Proof.
  revert fs0 body0.
  induction fs as [|f fs IH]; intros fs0 body0 Inv Hnodup Hlen Hobj; [done|].
  rewrite (cons_middle f), app_assoc in Hnodup, Hlen.
  change (f :: fs) with ([f] ++ fs) in Hobj.
  rewrite visitable_fields_app in Hobj.
  apply Forall_app in Hobj as [Hf Hfs].
  destruct (accepted_field sname fs0 body0 f Inv) as [body1 H1].
  - rewrite bind_app, app_assoc in Hnodup. by apply NoDup_app in Hnodup as [? _].
  - rewrite visitable_fields_app, length_app in Hlen. lia.
  - done.
  - rewrite fmap_cons. simpl. rewrite H1. simpl.
    apply (IH (fs0 ++ [f])); [|done..]. by eapply registering_step.
Qed.

(** A registration is accepted when the names it declares are pairwise
    distinct and distinct from the names the macros use, at most
    [maxVisitableRank + 1] of its fields are visitable, and none of these
    is of reference type. *)
Lemma registration_accepted sname fs :
  NoDup (begin_names ++ end_names ++ (fs ≫= declared_names)) →
  length (visitable_fields fs) ≤ S maxVisitableRank →
  Forall (λ f, is_reference f.1 = false) (visitable_fields fs) →
  is_Some (define (registration sname fs)).
Proof.
  intros Hnodup Hlen Hobj.
  assert (NoDup (begin_names ++ (fs ≫= declared_names))) as Hnodup'.
  { eapply sublist_NoDup; [exact Hnodup|].
    apply sublist_app; [done|]. by apply sublist_inserts_l. }
  assert (∀ x, x ∈ end_names → x ∉ begin_names ++ (fs ≫= declared_names))
    as Hend.
  { intros x Hx [Hin|Hin]%elem_of_app.
    - apply NoDup_app in Hnodup as (_ & Hdisj & _).
      apply (Hdisj _ Hin). apply elem_of_app. by left.
    - apply NoDup_app in Hnodup as (_ & _ & Hnodup).
      apply NoDup_app in Hnodup as (_ & Hdisj & _). by apply (Hdisj _ Hx). }
  unfold define. rewrite registration_opened, run_app.
  unfold opened. cbn [run expand].
  destruct (registering_begin sname) as (body0 & -> & Inv0). simpl.
  destruct (accepted_run sname [] body0 fs Inv0 Hnodup' Hlen Hobj)
    as [body Hbody].
  rewrite Hbody. simpl.
  pose proof (registering_run _ _ _ _ _ Inv0 Hbody) as Inv. simpl in Inv.
  unfold END_VISITABLES. rewrite (registering_query _ _ _ Inv). simpl.
  rewrite declare_fresh; last first.
  { eapply registering_fresh; [done|]. apply Hend. by left. }
  simpl. rewrite declare_fresh; [done|].
  rewrite fmap_app. intros [Hin| Hin%list_elem_of_singleton]%elem_of_app.
  - revert Hin. eapply registering_fresh; [done|].
    apply Hend. right. by left.
  - done.
Qed.

(** ** The dispatcher *)

Lemma std_forward_deduce s : std_forward (deduce s) (sr_object s) = s.
Proof. by destruct s as [o cv []]. Qed.

(** The visit of a list of member records is the sequence of visitor calls,
    one per record, each on the state the previous call left. *)
Lemma structure_helper_apply_visitor_foldl {Σ : Type}
    (Ms : TypeList member_record) (v : visitor_of Σ) s σ :
  structure_helper_apply_visitor Ms v s σ
  = foldl (λ σ M, v (member_name M)
                    (member_ptr_helper_apply (helper_T M) (member_ptr M) s)
                    σ) σ Ms.
Proof.
  revert σ. induction Ms as [|M Ms IH]; intros σ; [done|].
  simpl. rewrite IH. unfold member_helper_apply_visitor.
  by rewrite !std_forward_deduce.
Qed.

Lemma calls_on_descriptors {Σ : Type} sname (v : visitor_of Σ) s fields σ :
  structure_helper_apply_visitor (descriptor sname <$> fields) v s σ
  = calls_on v s fields σ.
Proof.
  rewrite structure_helper_apply_visitor_foldl. unfold calls_on.
  revert σ. induction fields as [|f fields IH]; intros σ; [done|].
  simpl. by rewrite IH.
Qed.

Lemma calls_on_record_calls s fields calls :
  calls_on record_calls s fields calls
  = calls ++ ((λ f, (f.2, member_ptr_helper_apply f.1 f.2 s)) <$> fields).
Proof.
  unfold calls_on. revert calls.
  induction fields as [|f fields IH]; intros calls; simpl.
  - by rewrite app_nil_r.
  - rewrite IH. unfold record_calls. by rewrite <- app_assoc.
Qed.

Lemma calls_on_emit {value : Type} (m : store value) s fields out :
  calls_on (emit m) s fields out
  = out ++ ((λ f, (f.2, m !! (sr_object s, f.2))) <$> fields).
Proof.
  unfold calls_on. revert out.
  induction fields as [|f fields IH]; intros out; simpl.
  - by rewrite app_nil_r.
  - rewrite IH. unfold emit. rewrite <- app_assoc. do 3 f_equal.
    unfold read_ref, address_of, member_ptr_helper_apply.
    by destruct (select_apply s).
Qed.

(** What visiting an instance of an accepted registration does: the calls
    for the fields the closed registry holds. *)
Lemma visit_registered {Σ : Type} sname fs cls (v : visitor_of Σ) s σ :
  define (registration sname fs) = Some cls →
  traits.visitable_apply cls v s σ
  = Some (calls_on v s (take maxVisitableRank (visitable_fields fs)) σ).
Proof.
  intros Hcls.
  pose proof Hcls as (body & _ & _ & _ & Hlist & Htag)%registration_closed.
  apply (define_member_type _ _ _ _ Hcls) in Hlist.
  unfold traits.visitable_apply. rewrite Htag, Hlist.
  unfold descriptors. rewrite <- fmap_take, calls_on_descriptors.
  by rewrite std_forward_deduce.
Qed.

(** The two examples of the specification: visiting [p = {x: 3, y: 4}]
    emits ["x", 3] and then ["y", 4]; visiting a structure without fields
    emits nothing. *)
Example Point_visit :
  visit Point_class instance0 (emit Point_memory) []
  = Some [("x", Some 3); ("y", Some 4)].
Proof. reflexivity. Qed.

Example Empty_visit :
  (cls ← define (registration "Empty" []);
   visit (struct_of cls) instance0 (emit Point_memory) [])
  = Some [].
Proof. reflexivity. Qed.

(** * The claims *)

(** ** C3: the ordered type registry *)

(** C3.  For every registry [r] and descriptor [d], [Append r d] has the
    elements of [r], in the same order, followed by [d] at the end; its
    size is the size of [r] plus one; the empty registry has size [0].
    [Append] is a function: it has no effect besides its result, and the
    registry it is given is the same value after the call. *)
Theorem C3_append_contract (A : Type) (r : TypeList A) (d : A) :
  Append r d = r ++ [d] ∧
  (∀ i, i < TypeList_size r → Append r d !! i = r !! i) ∧
  Append r d !! TypeList_size r = Some d ∧
  (∀ i, TypeList_size r < i → Append r d !! i = None) ∧
  TypeList_size (Append r d) = TypeList_size r + 1 ∧
  TypeList_size (@nil A) = 0.
Proof.
  split_and!.
  - apply Append_app.
  - intros i. apply Append_lookup_old.
  - apply Append_lookup_new.
  - intros i Hi. apply lookup_ge_None. rewrite <- Nat.le_succ_l in Hi.
    pose proof (Append_size r d) as Hsize. unfold TypeList_size in *. lia.
  - apply Append_size.
  - done.
Qed.

Lemma C3_witness :
  0 < TypeList_size [1; 2] ∧ Append [1; 2] 3 !! 0 = [1; 2] !! 0.
Proof.
  assert (H : 0 < TypeList_size [1; 2]) by (vm_compute; lia).
  split; [exact H|].
  destruct (C3_append_contract nat [1; 2] 3) as (_ & Hold & _).
  exact (Hold 0 H).
Defined.

(** ** A structure with one field more than the bound *)

Lemma Big_fields_201_accepted :
  is_Some (define (registration "Big" (Big_fields 201))).
Proof.
  apply registration_accepted.
  - refine (bool_decide_unpack _ _). by vm_compute.
  - by vm_compute.
  - refine (bool_decide_unpack _ _). by vm_compute.
Qed.

(** ** C1: the visit *)

(** C1 (as amended).  For every record type that completed the three-step
    registration declaring the fields [f1, ..., fn] in order, with [n] at
    most [maxVisitableRank = 200], and every instance and visitor: visiting
    is the sequence of the [n] visitor calls [visitor(name(fi), ref(fi))]
    for [i = 1..n] in declaration order, each on the state the previous one
    left; a visitor that records its calls records exactly these [n] calls,
    and a visitor that reads through the reference sees the value of
    [fi]. *)
Theorem C1_visit_in_declaration_order sname fs cls :
  define (registration sname fs) = Some cls →
  length (visitable_fields fs) ≤ maxVisitableRank →
  (∀ (Σ : Type) (v : visitor_of Σ) s σ,
     traits.visitable_apply cls v s σ
     = Some (calls_on v s (visitable_fields fs) σ)) ∧
  (∀ s, traits.visitable_apply cls record_calls s []
        = Some (call_for s <$> visitable_fields fs)) ∧
  (∀ (value : Type) (m : store value) s,
     traits.visitable_apply cls (emit m) s []
     = Some ((λ f, (f.2, m !! (sr_object s, f.2))) <$> visitable_fields fs)).
Proof.
  intros Hcls Hn.
  assert (Hall : take maxVisitableRank (visitable_fields fs)
                 = visitable_fields fs) by by apply take_ge.
  split_and!; intros.
  - by rewrite (visit_registered _ _ _ _ _ _ Hcls), Hall.
  - by rewrite (visit_registered _ _ _ _ _ _ Hcls), Hall,
      calls_on_record_calls.
  - by rewrite (visit_registered _ _ _ _ _ _ Hcls), Hall, calls_on_emit.
Qed.

Lemma C1_witness :
  define (registration "Point" Point_fields) = Some Point_class ∧
  length (visitable_fields Point_fields) ≤ maxVisitableRank ∧
  traits.visitable_apply Point_class (emit Point_memory) instance0 []
  = Some ((λ f, (f.2, Point_memory !! (sr_object instance0, f.2)))
            <$> visitable_fields Point_fields).
Proof.
  assert (H1 : define (registration "Point" Point_fields) = Some Point_class)
    by reflexivity.
  assert (H2 : length (visitable_fields Point_fields) ≤ maxVisitableRank)
    by (vm_compute; lia).
  split; [exact H1|]. split; [exact H2|].
  apply (C1_visit_in_declaration_order "Point" Point_fields Point_class H1 H2).
Defined.

(** With 201 visitable fields the registration is accepted, and the visit
    makes the calls for the first 200 only. *)
Lemma C1_counterexample :
  ∃ cls calls,
    define (registration "Big" (Big_fields 201)) = Some cls ∧
    length (visitable_fields (Big_fields 201)) = 201 ∧
    traits.visitable_apply cls record_calls instance0 [] = Some calls ∧
    calls = call_for instance0 <$> visitable_fields (Big_fields 200) ∧
    length calls = 200.
Proof.
  destruct Big_fields_201_accepted as [cls Hcls].
  exists cls. eexists. split; [done|]. split; [by vm_compute|].
  rewrite (visit_registered _ _ _ _ _ _ Hcls), calls_on_record_calls.
  split; [reflexivity|]. split; by vm_compute.
Qed.

(** ** C6: value categories *)

(** C6 (as amended).  For every field accessor (of a member of object
    type: there is none for a reference) and every instance, the accessor
    yields a reference to that field of that instance.  The reference is
    to const when the instance is const or the declared type of the field
    is; it is an rvalue reference ([T &&]) exactly for an instance that is
    a non-const rvalue, and an lvalue reference otherwise, also for a const
    rvalue.  So a read-only instance yields read-only
    references, and for a field whose declared type is not const the
    reference has the access of the instance: mutable for a mutable
    instance, movable for one being moved from.  The dispatcher hands the
    instance on unchanged: every accessor call of a visit receives the
    reference the visit was given. *)
Theorem C6_value_category_preserved (T : cpp_type) (ptr : string)
    (s : struct_ref) :
  is_reference T = false →
  fr_object (member_ptr_helper_apply T ptr s) = sr_object s ∧
  fr_member (member_ptr_helper_apply T ptr s) = ptr ∧
  fr_cv (member_ptr_helper_apply T ptr s)
  = (if decide (sr_cv s = cv_const) then cv_const else type_cv T) ∧
  fr_cat (member_ptr_helper_apply T ptr s)
  = (if decide (sr_cv s = cv_none ∧ sr_cat s = xvalue)
     then xvalue else lvalue) ∧
  (struct_access s = read_only →
   field_access (member_ptr_helper_apply T ptr s) = read_only ∧
   fr_cat (member_ptr_helper_apply T ptr s) = lvalue) ∧
  (type_cv T = cv_const →
   field_access (member_ptr_helper_apply T ptr s) = read_only) ∧
  (type_cv T = cv_none →
   field_access (member_ptr_helper_apply T ptr s) = struct_access s) ∧
  std_forward (deduce s) (sr_object s) = s ∧
  (∀ (Σ : Type) (Ms : TypeList member_record) (v : visitor_of Σ) σ,
     structure_helper_apply_visitor Ms v s σ
     = foldl (λ σ M, v (member_name M)
                       (member_ptr_helper_apply (helper_T M) (member_ptr M) s)
                       σ) σ Ms).
Proof.
  intros _. split_and!.
  - by destruct s as [o [] []].
  - by destruct s as [o [] []].
  - by destruct s as [o [] []].
  - by destruct s as [o [] []].
  - by destruct s as [o [] []].
  - intros HT. unfold field_access.
    destruct s as [o [] []]; simpl; by rewrite ?HT.
  - intros HT. unfold field_access, struct_access.
    destruct s as [o [] []]; simpl; by rewrite ?HT.
  - apply std_forward_deduce.
  - intros. apply structure_helper_apply_visitor_foldl.
Qed.

Lemma C6_witness :
  is_reference int = false ∧
  type_cv int = cv_none ∧
  field_access (member_ptr_helper_apply int "x" temporary0)
  = struct_access temporary0 ∧
  struct_access temporary0 = movable.
Proof.
  assert (H0 : is_reference int = false) by reflexivity.
  assert (H : type_cv int = cv_none) by reflexivity.
  split; [exact H0|]. split; [exact H|]. split; [|reflexivity].
  destruct (C6_value_category_preserved int "x" temporary0 H0)
    as (_ & _ & _ & _ & _ & _ & Hsame & _).
  exact (Hsame H).
Defined.

(** A mutable instance of [Config] yields a read-only reference to its
    field [version], declared [const int]; a const temporary yields lvalue
    references. *)
Lemma C6_counterexample :
  define (registration "Config" Config_fields) = Some Config_class ∧
  struct_access instance0 = mutable ∧
  traits.visitable_apply Config_class record_calls instance0 []
  = Some [("version", {| fr_object := 0; fr_member := "version";
                         fr_cv := cv_const; fr_cat := lvalue |});
          ("level", {| fr_object := 0; fr_member := "level";
                       fr_cv := cv_none; fr_cat := lvalue |})] ∧
  field_access (member_ptr_helper_apply const_int "version" instance0)
  = read_only ∧
  field_access (member_ptr_helper_apply const_int "version" temporary0)
  = read_only ∧
  sr_cat const_temporary0 = xvalue ∧
  fr_cat (member_ptr_helper_apply int "level" const_temporary0) = lvalue.
Proof. split_and!; reflexivity. Qed.

(** ** C7: a registration without fields *)


(** ** Consequences of the invariant used by several claims *)

Lemma registration_prefix sname fs cls j :
  define (registration sname fs) = Some cls →
  ∃ body, define (opened sname (take j fs)) = Some body ∧
          registering sname (take j fs) body.
Proof.
  intros (body & Hbody & _)%registration_closed.
  unfold define, opened in Hbody.
  rewrite <- (take_drop j fs), fmap_app, app_comm_cons, run_app in Hbody.
  fold (opened sname (take j fs)) in Hbody.
  destruct (run (opened sname (take j fs)) []) as [body'|] eqn:Hj; [|done].
  exists body'. split; [done|]. by apply opened_registering.
Qed.

Lemma visitable_names_sublist fs :
  (visitable_fields fs).*2 `sublist_of` fs ≫= declared_names.
Proof.
  induction fs as [|[TYPE NAME|TYPE NAME] fs IH]; [done| |].
  - rewrite bind_cons. simpl. apply sublist_skip. by apply sublist_cons.
  - rewrite bind_cons. simpl. by apply sublist_cons.
Qed.

Lemma registering_names_NoDup sname fs body :
  registering sname fs body → NoDup (visitable_fields fs).*2.
Proof.
  intros Inv. eapply sublist_NoDup; [apply (reg_nodup _ _ _ Inv)|].
  apply sublist_inserts_l, visitable_names_sublist.
Qed.

Lemma descriptors_member_name sname fs :
  member_name <$> descriptors sname fs = (visitable_fields fs).*2.
Proof. unfold descriptors. by rewrite <- list_fmap_compose. Qed.

(** ** C2: the priority-indexed accumulator *)

(** C2 (as amended).  Within one record definition, after the begin marker
    and [k] field declarations, the overloads declared so far have the
    ranks [0, 1, ..., k], in this order, so that each append has a strictly
    higher rank than the ones before it; and for [k] at most
    [maxVisitableRank = 200] the overload of the highest rank returns the
    list of the first [k] descriptors and the query for the current
    registry yields exactly that list. *)
Theorem C2_current_registry sname fs body :
  define (opened sname fs) = Some body →
  (overloads Visit_Struct_Get_Visitables__ body).*1
  = seq 0 (S (length (visitable_fields fs))) ∧
  (length (visitable_fields fs) ≤ maxVisitableRank →
   last (overloads Visit_Struct_Get_Visitables__ body)
   = Some (length (visitable_fields fs), descriptors sname fs) ∧
   VISIT_STRUCT_GET_REGISTERED_MEMBERS body = Some (descriptors sname fs)).
Proof.
  intros Inv%opened_registering. split; [apply Inv|]. intros Hk.
  assert (Hall : take maxVisitableRank (descriptors sname fs)
                 = descriptors sname fs).
  { apply take_ge. by rewrite descriptors_length. }
  split.
  - rewrite last_lookup, <- (length_fmap fst), (reg_ranks _ _ _ Inv), length_seq.
    simpl. pose proof (reg_latest _ _ _ Inv) as Hlatest.
    rewrite Hall in Hlatest.
    by replace (length (visitable_fields fs) `min` maxVisitableRank)
      with (length (visitable_fields fs)) in Hlatest by lia.
  - by rewrite (registering_query _ _ _ Inv), Hall.
Qed.

Lemma C2_witness :
  define (opened "Point" Point_fields) = Some Point_open ∧
  length (visitable_fields Point_fields) ≤ maxVisitableRank ∧
  (overloads Visit_Struct_Get_Visitables__ Point_open).*1 = [0; 1; 2] ∧
  VISIT_STRUCT_GET_REGISTERED_MEMBERS Point_open
  = Some (descriptors "Point" Point_fields).
Proof.
  assert (H1 : define (opened "Point" Point_fields) = Some Point_open)
    by reflexivity.
  assert (H2 : length (visitable_fields Point_fields) ≤ maxVisitableRank)
    by (vm_compute; lia).
  split; [exact H1|]. split; [exact H2|].
  destruct (C2_current_registry "Point" Point_fields Point_open H1)
    as [Hranks Hquery].
  split; [exact Hranks|]. exact (proj2 (Hquery H2)).
Defined.

(** After 201 field declarations the query yields 200 descriptors, not the
    list of the first 201. *)
Lemma C2_counterexample :
  ∃ body Ls,
    define (opened "Big" (Big_fields 201)) = Some body ∧
    length (visitable_fields (Big_fields 201)) = 201 ∧
    VISIT_STRUCT_GET_REGISTERED_MEMBERS body = Some Ls ∧
    Ls = descriptors "Big" (Big_fields 200) ∧
    Ls ≠ descriptors "Big" (Big_fields 201).
Proof.
  destruct Big_fields_201_accepted as [cls Hcls].
  apply registration_closed in Hcls as (body & Hbody & Inv & _).
  exists body. eexists. split; [done|]. split; [by vm_compute|].
  split; [by apply registering_query|]. split; [by vm_compute|].
  intros H%(f_equal length). by vm_compute in H.
Qed.

(** ** C4: the bound on the number of fields *)

(** C4 (as amended).  The bound is the constant [maxVisitableRank = 200]:
    the registry of a record never holds more than its first 200 field
    descriptors.  The header has no check of the field count.  The closed
    registry of every accepted registration is the list of its first 200
    descriptors, so a 201st visitable field, where the registration is
    accepted, is left out of the registry without a diagnostic; an accepted
    registration has at most 201 visitable fields, and a registration of
    202 or more is a definition-time failure (the second declaration of
    the overload of rank 201). *)
Theorem C4_field_bound sname fs :
  maxVisitableRank = 200 ∧
  (∀ cls, define (registration sname fs) = Some cls →
     length (visitable_fields fs) ≤ S maxVisitableRank ∧
     lookup_typedef Visit_Struct_Registered_Members_List__ cls
     = Some (type_list (take maxVisitableRank (descriptors sname fs))) ∧
     ∀ (Σ : Type) (v : visitor_of Σ) s σ,
       traits.visitable_apply cls v s σ
       = Some (calls_on v s (take maxVisitableRank (visitable_fields fs)) σ)) ∧
  (S maxVisitableRank < length (visitable_fields fs) →
   define (registration sname fs) = None).
Proof.
  assert (Hsome : ∀ cls, define (registration sname fs) = Some cls →
                         length (visitable_fields fs) ≤ S maxVisitableRank).
  { intros cls (body & _ & Inv & _)%registration_closed. apply Inv. }
  split; [done|]. split.
  - intros cls Hcls. split; [by eapply Hsome|]. split.
    + by apply registration_closed in Hcls as (body & _ & _ & _ & Hlist & _).
    + intros. apply (visit_registered _ _ _ _ _ _ Hcls).
  - intros Hlen.
    destruct (define (registration sname fs)) as [cls|] eqn:Hcls; [|done].
    specialize (Hsome cls eq_refl). lia.
Qed.

Lemma C4_witness :
  S maxVisitableRank < length (visitable_fields (Big_fields 202)) ∧
  define (registration "Big" (Big_fields 202)) = None.
Proof.
  assert (H : S maxVisitableRank < length (visitable_fields (Big_fields 202)))
    by (vm_compute; lia).
  split; [exact H|].
  exact (proj2 (proj2 (C4_field_bound "Big" (Big_fields 202))) H).
Defined.

(** A record with 201 visitable fields, one more than the bound, is
    accepted; its registry holds the first 200. *)
Lemma C4_counterexample :
  ∃ cls,
    define (registration "Big" (Big_fields 201)) = Some cls ∧
    maxVisitableRank < length (visitable_fields (Big_fields 201)) ∧
    lookup_typedef Visit_Struct_Registered_Members_List__ cls
    = Some (type_list (descriptors "Big" (Big_fields 200))).
Proof.
  destruct Big_fields_201_accepted as [cls Hcls].
  exists cls. split; [done|]. split; [vm_compute; lia|].
  apply registration_closed in Hcls as (body & _ & _ & _ & -> & _).
  by vm_compute.
Qed.

(** ** C8: one field name declared twice *)

(** C8 (as amended).  Declaring the same field name twice within one
    record's registration sequence is a definition-time failure: the second
    [VISITABLE] declares the data member and its member record again.  No
    descriptor is ever merged, overwritten or removed by name: in an
    accepted registration the field names are distinct, the descriptors are
    distinct, and the closed registry holds each of the first
    [maxVisitableRank] descriptors at its declaration position. *)
Theorem C8_same_name_twice sname fs :
  (¬ NoDup (visitable_fields fs).*2 → define (registration sname fs) = None) ∧
  (∀ cls, define (registration sname fs) = Some cls →
     NoDup (visitable_fields fs).*2 ∧
     NoDup (descriptors sname fs) ∧
     ∃ Ms, lookup_typedef Visit_Struct_Registered_Members_List__ cls
           = Some (type_list Ms) ∧
           ∀ i, i < maxVisitableRank → Ms !! i = descriptors sname fs !! i).
Proof.
  assert (Hsome : ∀ cls, define (registration sname fs) = Some cls →
                         NoDup (visitable_fields fs).*2).
  { intros cls (body & _ & Inv & _)%registration_closed.
    by eapply registering_names_NoDup. }
  split.
  - intros Hdup. destruct (define (registration sname fs)) as [cls|] eqn:Hcls;
      [|done]. destruct Hdup. by eapply Hsome.
  - intros cls Hcls. split; [by eapply Hsome|]. split.
    + apply (NoDup_fmap_1 member_name).
      rewrite descriptors_member_name. by eapply Hsome.
    + apply registration_closed in Hcls as (body & _ & _ & _ & Hlist & _).
      eexists. split; [done|]. intros i Hi. by apply lookup_take_lt.
Qed.

Lemma C8_witness :
  ¬ NoDup (visitable_fields Twice_fields).*2 ∧
  define (registration "Twice" Twice_fields) = None ∧
  define (registration "Point" Point_fields) = Some Point_class ∧
  NoDup (visitable_fields Point_fields).*2.
Proof.
  assert (H1 : ¬ NoDup (visitable_fields Twice_fields).*2).
  { refine (bool_decide_unpack _ _). by vm_compute. }
  assert (H2 : define (registration "Point" Point_fields) = Some Point_class)
    by reflexivity.
  split; [exact H1|]. split; [|split; [exact H2|]].
  - exact (proj1 (C8_same_name_twice "Twice" Twice_fields) H1).
  - exact (proj1 (proj2 (C8_same_name_twice "Point" Point_fields)
                    Point_class H2)).
Defined.

(** The registration that declares [x] twice is rejected: there is no
    registry with two descriptors. *)
Lemma C8_counterexample :
  define (registration "Twice" Twice_fields) = None.
Proof. reflexivity. Qed.

(** ** C10: snapshots of the registry *)

(** C10 (as amended).  Registry construction is monotone: every append
    leaves the descriptors appended before it at their positions, and the
    registry snapshot after the first [j] declarations of an accepted
    registration, [k] of them visitable fields, is the prefix of the closed
    registry of length [min k maxVisitableRank]: the length-[k] prefix for
    every [k] up to 200. *)
Theorem C10_snapshot_prefix sname fs cls j :
  define (registration sname fs) = Some cls →
  ∃ body Ls Ms,
    define (opened sname (take j fs)) = Some body ∧
    VISIT_STRUCT_GET_REGISTERED_MEMBERS body = Some Ls ∧
    lookup_typedef Visit_Struct_Registered_Members_List__ cls
    = Some (type_list Ms) ∧
    Ls = take (length (visitable_fields (take j fs))) Ms ∧
    length Ls = length (visitable_fields (take j fs)) `min` maxVisitableRank ∧
    (∀ i M, Ls !! i = Some M → Ms !! i = Some M).
Proof.
  intros Hcls.
  destruct (registration_prefix sname fs cls j Hcls) as (body & Hbody & Inv).
  apply registration_closed in Hcls as (_ & _ & _ & _ & Hlist & _).
  exists body, (take maxVisitableRank (descriptors sname (take j fs))),
    (take maxVisitableRank (descriptors sname fs)).
  assert (Hprefix :
    take maxVisitableRank (descriptors sname (take j fs))
    = take (length (visitable_fields (take j fs)))
        (take maxVisitableRank (descriptors sname fs))).
  { rewrite <- (take_drop j fs) at 3. rewrite descriptors_app, take_take.
    rewrite <- (descriptors_length sname).
    destruct (decide (length (descriptors sname (take j fs))
                      ≤ maxVisitableRank)) as [Hle|Hgt].
    - rewrite Nat.min_l by done. rewrite take_app_length.
      by apply take_ge.
    - rewrite Nat.min_r by lia. rewrite take_app_le by lia. done. }
  split_and!; try done.
  - by apply registering_query.
  - rewrite length_take, descriptors_length. lia.
  - intros i M. rewrite Hprefix. by intros [? _]%lookup_take_Some.
Qed.

Lemma C10_witness :
  define (registration "Point" Point_fields) = Some Point_class ∧
  ∃ body Ls,
    define (opened "Point" (take 1 Point_fields)) = Some body ∧
    VISIT_STRUCT_GET_REGISTERED_MEMBERS body = Some Ls ∧
    length Ls = 1.
Proof.
  assert (H : define (registration "Point" Point_fields) = Some Point_class)
    by reflexivity.
  split; [exact H|].
  destruct (C10_snapshot_prefix "Point" Point_fields Point_class 1 H)
    as (body & Ls & Ms & Hbody & Hquery & _ & _ & Hlen & _).
  exists body, Ls. split; [exact Hbody|]. split; [exact Hquery|]. exact Hlen.
Defined.

(** After the 201 field declarations of an accepted registration the
    snapshot has 200 elements: it is not a prefix of length 201. *)
Lemma C10_counterexample :
  ∃ cls body Ls,
    define (registration "Big" (Big_fields 201)) = Some cls ∧
    define (opened "Big" (take 201 (Big_fields 201))) = Some body ∧
    length (visitable_fields (take 201 (Big_fields 201))) = 201 ∧
    VISIT_STRUCT_GET_REGISTERED_MEMBERS body = Some Ls ∧
    length Ls = 200.
Proof.
  destruct Big_fields_201_accepted as [cls Hcls].
  destruct (registration_prefix "Big" _ cls 201 Hcls) as (body & Hbody & Inv).
  exists cls, body. eexists. split; [done|]. split; [done|].
  split; [by vm_compute|]. split; [by apply registering_query|].
  by vm_compute.
Qed.

(** ** C9: writing through the reference *)

Lemma calls_on_assign_other {value : Type} NAME (v : value) s fields x :
  NAME ∉ fields.*2 → calls_on (assign NAME v) s fields x = x.
Proof.
  unfold calls_on. revert x.
  induction fields as [|f fields IH]; intros x Hnot; [done|].
  rewrite fmap_cons, not_elem_of_cons in Hnot. destruct Hnot as [Hf Hnot].
  simpl. rewrite IH by done. unfold assign.
  destruct (String.eqb_spec f.2 NAME); [congruence | done].
Qed.

Lemma write_ref_member {value : Type} T NAME (v : value) s σ :
  sr_cv s = cv_none →
  type_cv T = cv_none →
  write_ref (member_ptr_helper_apply T NAME s) v σ
  = Some (<[(sr_object s, NAME) := v]> σ).
Proof.
  intros Hs HT. unfold write_ref.
  destruct s as [o [] []]; simpl in *; try done; by rewrite HT.
Qed.

Lemma calls_on_assign {value : Type} T NAME (v : value) s fields σ :
  sr_cv s = cv_none →
  type_cv T = cv_none →
  NoDup fields.*2 →
  (T, NAME) ∈ fields →
  calls_on (assign NAME v) s fields (Some σ)
  = Some (<[(sr_object s, NAME) := v]> σ).
Proof.
  intros Hs HT. induction fields as [|f fields IH]; intros Hnodup Hin.
  - by apply elem_of_nil in Hin.
  - rewrite fmap_cons in Hnodup.
    apply NoDup_cons in Hnodup as [Hf Hnodup].
    unfold calls_on. simpl. fold (calls_on (assign NAME v) s fields).
    unfold assign at 2. destruct (String.eqb_spec f.2 NAME) as [Heq|Hne].
    + apply elem_of_cons in Hin as [<-|Hin].
      * simpl. rewrite write_ref_member by done.
        by apply calls_on_assign_other.
      * destruct Hf. rewrite Heq.
        by apply (list_elem_of_fmap_2 snd _ (T, NAME)).
    + apply IH; [done|].
      apply elem_of_cons in Hin as [<-|?]; [by destruct Hne | done].
Qed.

(** C9 (as amended).  For every instance visited through a non-const
    reference (mutable, or moved from) and every field whose declared type
    is not const, so that the reference [r] the visitor receives for it is
    not to const: assigning [v] through [r] updates the memory of the
    instance itself, so that reading the field afterwards yields [v]; every
    other address, the other fields of the instance included, keeps its
    value; and this is the whole effect of a visit whose visitor assigns
    [v] through the reference it receives for that field. *)
Theorem C9_write_through_reference {value : Type} (sname : string)
    (fs : list field_decl) (cls : class_body) (s : struct_ref)
    (calls : list (string * field_ref)) (NAME : string) (r : field_ref)
    (v : value) (σ : store value) :
  define (registration sname fs) = Some cls →
  sr_cv s = cv_none →
  traits.visitable_apply cls record_calls s [] = Some calls →
  (NAME, r) ∈ calls →
  fr_cv r = cv_none →
  (∃ TYPE, (TYPE, NAME) ∈ visitable_fields fs ∧ type_cv TYPE = cv_none) ∧
  address_of r = (sr_object s, NAME) ∧
  write_ref r v σ = Some (<[(sr_object s, NAME) := v]> σ) ∧
  traits.visitable_apply cls (assign NAME v) s (Some σ)
  = Some (Some (<[(sr_object s, NAME) := v]> σ)) ∧
  (<[(sr_object s, NAME) := v]> σ) !! (sr_object s, NAME) = Some v ∧
  (∀ a, a ≠ (sr_object s, NAME) →
        (<[(sr_object s, NAME) := v]> σ) !! a = σ !! a).
Proof.
  intros Hcls Hs Hcalls Hin Hr.
  rewrite (visit_registered _ _ _ _ _ _ Hcls), calls_on_record_calls in Hcalls.
  injection Hcalls as <-. simpl in Hin.
  apply list_elem_of_fmap in Hin as ([T N] & [= -> ->] & Hf). simpl in *.
  assert (HT : type_cv T = cv_none).
  { revert Hr. unfold member_ptr_helper_apply.
    destruct s as [o [] []]; simpl in *; done. }
  split_and!.
  - exists T. split; [|done]. eapply subseteq_take, Hf.
  - unfold address_of, member_ptr_helper_apply. by destruct (select_apply s).
  - by apply write_ref_member.
  - rewrite (visit_registered _ _ _ _ _ _ Hcls). f_equal.
    apply (calls_on_assign T); [done..| |done].
    rewrite fmap_take. eapply sublist_NoDup; [|apply sublist_take].
    apply registration_closed in Hcls as (body & _ & Inv & _).
    by eapply registering_names_NoDup.
  - apply lookup_insert_eq.
  - intros a Ha. by apply lookup_insert_ne.
Qed.

Lemma C9_witness :
  define (registration "Point" Point_fields) = Some Point_class ∧
  sr_cv instance0 = cv_none ∧
  traits.visitable_apply Point_class record_calls instance0 []
  = Some (call_for instance0 <$> visitable_fields Point_fields) ∧
  ("y", member_ptr_helper_apply int "y" instance0)
  ∈ call_for instance0 <$> visitable_fields Point_fields ∧
  fr_cv (member_ptr_helper_apply int "y" instance0) = cv_none ∧
  traits.visitable_apply Point_class (assign "y" 7) instance0
    (Some Point_memory)
  = Some (Some (<[(sr_object instance0, "y") := 7]> Point_memory)).
Proof.
  assert (H1 : define (registration "Point" Point_fields) = Some Point_class)
    by reflexivity.
  assert (H2 : sr_cv instance0 = cv_none) by reflexivity.
  assert (H3 : traits.visitable_apply Point_class record_calls instance0 []
               = Some (call_for instance0 <$> visitable_fields Point_fields))
    by reflexivity.
  assert (H4 : ("y", member_ptr_helper_apply int "y" instance0)
               ∈ call_for instance0 <$> visitable_fields Point_fields).
  { right. left. }
  assert (H5 : fr_cv (member_ptr_helper_apply int "y" instance0) = cv_none)
    by reflexivity.
  split; [exact H1|]. split; [exact H2|]. split; [exact H3|].
  split; [exact H4|]. split; [exact H5|].
  exact (proj1 (proj2 (proj2 (proj2
    (C9_write_through_reference "Point" Point_fields Point_class instance0
       _ "y" _ 7 Point_memory H1 H2 H3 H4 H5))))).
Defined.

(** The field [version] of [Config] is declared [const int]: a visit of a
    mutable instance hands the visitor a reference to const for it, an
    assignment through that reference is rejected, and the memory of the
    instance is not updated. *)
Lemma C9_counterexample :
  define (registration "Config" Config_fields) = Some Config_class ∧
  sr_cv instance0 = cv_none ∧
  traits.visitable_apply Config_class record_calls instance0 []
  = Some (call_for instance0 <$> visitable_fields Config_fields) ∧
  ("version", member_ptr_helper_apply const_int "version" instance0)
  ∈ call_for instance0 <$> visitable_fields Config_fields ∧
  write_ref (member_ptr_helper_apply const_int "version" instance0) 7
    Point_memory = None ∧
  traits.visitable_apply Config_class (assign "version" 7) instance0
    (Some Point_memory) = Some None.
Proof.
  split_and!; try reflexivity. left.
Qed.

(** ** C5: the visitability tag *)

(** Every macro only adds declarations; only [END_VISITABLES] adds the
    tag, together with the registry typedef, and only where neither name is
    declared yet. *)
Lemma expand_extends i body body' :
  expand i body = Some body' →
  ∃ new, body' = body ++ new ∧
    if decide (i = end_visitables)
    then (∃ Ms, new = closing Ms) ∧
         (Visit_Struct_Registered_Members_List__ ∉ decl_name <$> body) ∧
         (Visit_Struct_Visitable_Structure_Tag__ ∉ decl_name <$> body)
    else lookup_typedef Visit_Struct_Visitable_Structure_Tag__ new = None.
Proof.
  destruct i as [NAME|TYPE NAME| |TYPE NAME]; simpl.
  - unfold BEGIN_VISITABLES. intros H.
    destruct (declare _ body) as [b1|] eqn:H1; simpl in H; [|done].
    apply declare_Some in H1 as ->. apply declare_Some in H as ->.
    eexists. split; [by rewrite <- app_assoc|]. done.
  - unfold VISITABLE. intros H.
    destruct (declare _ body) as [b1|] eqn:H1; simpl in H; [|done].
    apply declare_Some in H1 as ->.
    destruct (lookup_typedef _ _) as [[cur| |]|]; simpl in H; try done.
    destruct (pointer_to_member _) as [T|]; simpl in H; [|done].
    destruct (declare (nested_struct _) _) as [b2|] eqn:H2; simpl in H;
      [|done].
    apply declare_Some in H2 as ->.
    destruct (VISIT_STRUCT_GET_REGISTERED_MEMBERS _) as [L|]; simpl in H;
      [|done].
    apply declare_Some in H as ->.
    eexists. split; [by rewrite <- !app_assoc|]. done.
  - unfold END_VISITABLES. intros H.
    destruct (VISIT_STRUCT_GET_REGISTERED_MEMBERS _) as [L|]; simpl in H;
      [|done].
    destruct (declare _ body) as [b1|] eqn:H1; simpl in H; [|done].
    pose proof (declare_Some_fresh (member_typedef _ _) _ _ eq_refl H1) as Hf1.
    apply declare_Some in H1 as ->.
    pose proof (declare_Some_fresh (member_typedef _ _) _ _ eq_refl H) as Hf2.
    apply declare_Some in H as ->.
    eexists. split; [by rewrite <- app_assoc|]. simpl.
    split; [by eexists|]. split; [done|].
    intros Hin. apply Hf2. rewrite fmap_app. apply elem_of_app. by left.
  - intros ->%declare_Some. eexists. split; [done|]. done.
Qed.

Lemma run_extends items body cls :
  run items body = Some cls → ∃ new, cls = body ++ new.
Proof.
  revert body. induction items as [|i items IH]; intros body H; simpl in H.
  - exists []. rewrite app_nil_r. congruence.
  - destruct (expand i body) as [b1|] eqn:H1; simpl in H; [|done].
    apply expand_extends in H1 as (new1 & -> & _).
    apply IH in H as (new2 & ->). exists (new1 ++ new2).
    by rewrite app_assoc.
Qed.

Lemma closed_class_extends body new :
  closed_class body → closed_class (body ++ new).
Proof.
  intros [Htag [Ms Hlist]]. split; [|exists Ms];
    rewrite lookup_typedef_app; by simplify_option_eq.
Qed.

Lemma run_tag items body cls :
  run items body = Some cls →
  lookup_typedef Visit_Struct_Visitable_Structure_Tag__ body = None →
  if decide (end_visitables ∈ items)
  then closed_class cls
  else lookup_typedef Visit_Struct_Visitable_Structure_Tag__ cls = None.
Proof.
  revert body. induction items as [|i items IH]; intros body H Hnone.
  - simpl in H. injection H as <-. rewrite decide_False; [done|].
    apply not_elem_of_nil.
  - simpl in H. destruct (expand i body) as [b1|] eqn:H1; simpl in H; [|done].
    apply expand_extends in H1 as (new1 & -> & Hnew).
    destruct (decide (i = end_visitables)) as [->|Hi].
    + rewrite decide_True by by left.
      destruct Hnew as ([Ms ->] & Hlist & Htag).
      apply run_extends in H as (new & ->).
      apply closed_class_extends. split.
      * by apply closing_lookup_tag.
      * exists Ms. by apply closing_lookup_list.
    + specialize (IH _ H). rewrite lookup_typedef_app, Hnone in IH.
      specialize (IH Hnew).
      destruct (decide (end_visitables ∈ items)) as [Hin|Hnin].
      * rewrite decide_True by by right. done.
      * rewrite decide_False; [done|].
        by intros [?|?]%elem_of_cons.
Qed.

(** Without the begin marker only ordinary members can be declared. *)
Lemma run_without_begin items body cls :
  run items body = Some cls →
  overloads Visit_Struct_Get_Visitables__ body = [] →
  lookup_typedef VISIT_STRUCT_CURRENT_TYPE body = None →
  (∀ sname, begin_visitables sname ∉ items) →
  end_visitables ∉ items.
Proof.
  revert body.
  induction items as [|i items IH]; intros body H Hfun Hcur Hbegin.
  - apply not_elem_of_nil.
  - simpl in H. destruct (expand i body) as [b1|] eqn:H1; simpl in H; [|done].
    destruct i as [NAME|TYPE NAME| |TYPE NAME]; simpl in H1.
    + destruct (Hbegin NAME). by left.
    + unfold VISITABLE in H1.
      destruct (declare _ body) as [b0|] eqn:H0; simpl in H1; [|done].
      apply declare_Some in H0 as ->.
      by rewrite lookup_typedef_app, Hcur in H1.
    + unfold END_VISITABLES, VISIT_STRUCT_GET_REGISTERED_MEMBERS in H1.
      by rewrite Hfun in H1.
    + apply declare_Some in H1 as ->.
      apply not_elem_of_cons. split; [done|].
      apply (IH _ H).
      * by rewrite overloads_app, Hfun.
      * by rewrite lookup_typedef_app, Hcur.
      * intros sname Hin. apply (Hbegin sname). by right.
Qed.

(** C5 (as amended).  [visit] is accepted only for types that pass the tag
    test, the lookup of the member type
    [T::Visit_Struct_Visitable_Structure_Tag__].  The test is exact for a
    structure without base class, with public members, whose body is
    written with the macros and accepted by the compiler: such a structure
    carries the tag exactly when its definition reached the end marker,
    which only a definition that began registration can; the
    specialization of [traits::visitable] matches exactly then, and
    [visit] is accepted exactly then and rejected otherwise. *)
Theorem C5_visitable_iff_registered (items : list item) (cls : class_body) :
  define items = Some cls →
  (traits.visitable_matches (struct_of cls) = true ↔ end_visitables ∈ items) ∧
  (traits.visitable_value (struct_of cls) = Some true
   ↔ end_visitables ∈ items) ∧
  (∀ (Σ : Type) (v : visitor_of Σ) s σ,
     is_Some (visit (struct_of cls) s v σ) ↔ end_visitables ∈ items) ∧
  (∀ (Σ : Type) (v : visitor_of Σ) s σ,
     end_visitables ∉ items → visit (struct_of cls) s v σ = None) ∧
  ((∀ sname, begin_visitables sname ∉ items) → end_visitables ∉ items) ∧
  (∀ (T : class_type) (Σ : Type) (v : visitor_of Σ) s σ,
     is_Some (visit T s v σ) → traits.visitable_matches T = true).
Proof.
  intros Hdef. pose proof Hdef as H.
  pose proof (run_without_begin items [] cls H eq_refl eq_refl) as Hbegin.
  apply run_tag in H; [|done].
  assert (Hmatch : traits.visitable_matches cls = true ↔ end_visitables ∈ items).
  { rewrite (define_visitable_matches _ _ Hdef).
    destruct (decide (end_visitables ∈ items)) as [Hin|Hnin].
    - by destruct H as [-> _].
    - rewrite H. split; [done|]. intros; contradiction. }
  assert (Hvisit : ∀ (Σ : Type) (v : visitor_of Σ) s σ,
            is_Some (visit cls s v σ) ↔ end_visitables ∈ items).
  { intros Σ v s σ. unfold visit, traits.visitable_apply.
    destruct (decide (end_visitables ∈ items)) as [Hin|Hnin].
    - destruct H as [_ [Ms Hlist]].
      assert (traits.visitable_matches cls = true) as -> by by apply Hmatch.
      rewrite (define_member_type _ _ _ _ Hdef Hlist).
      split; [done | by eexists].
    - assert (traits.visitable_matches cls = false) as ->.
      { apply not_true_is_false. by rewrite Hmatch. }
      split; [by intros [? ?] | done]. }
  split_and!; try done.
  - rewrite <- Hmatch. unfold traits.visitable_value.
    destruct (traits.visitable_matches cls); split; congruence.
  - intros Σ v s σ Hnin. apply eq_None_not_Some. by rewrite Hvisit.
  - intros T Σ v s σ. unfold visit.
    destruct (traits.visitable_matches T); [done | by intros [? ?]].
Qed.

(** [Point] completed its registration and is visitable; a structure that
    only began registration is not. *)
Lemma C5_witness :
  define (registration "Point" Point_fields) = Some Point_class ∧
  traits.visitable_matches (struct_of Point_class) = true ∧
  define (opened "Point" Point_fields) = Some Point_open ∧
  (end_visitables ∉ opened "Point" Point_fields) ∧
  visit (struct_of Point_open) instance0 record_calls [] = None.
Proof.
  assert (H1 : define (registration "Point" Point_fields) = Some Point_class)
    by reflexivity.
  assert (H2 : define (opened "Point" Point_fields) = Some Point_open)
    by reflexivity.
  assert (H3 : end_visitables ∉ opened "Point" Point_fields).
  { refine (bool_decide_unpack _ _). by vm_compute. }
  split; [exact H1|]. split; [|split; [exact H2|split; [exact H3|]]].
  - destruct (C5_visitable_iff_registered _ _ H1) as [Hm _].
    apply Hm. right. right. right. left.
  - destruct (C5_visitable_iff_registered _ _ H2) as (_ & _ & _ & Hv & _).
    apply (Hv _ record_calls instance0 [] H3).
Defined.

(** The test has false positives and false negatives.  [Point3] is derived
    from [Point] and registers nothing: it passes the test, and a visit of
    a [Point3] is accepted and reaches the fields of [Point] only.
    [Sealed] completed its registration in a [class]: its tag is a private
    member, the test fails and the visit is rejected. *)
Lemma C5_counterexample :
  define (registration "Point" Point_fields) = Some Point_class ∧
  Point3 = derived_of key_struct public (struct_of Point_class)
             [data_member int "z"] ∧
  traits.visitable_matches Point3 = true ∧
  visit Point3 instance0 record_calls []
  = Some (call_for instance0 <$> visitable_fields Point_fields) ∧
  define (registration "Sealed" Sealed_fields) = Some Sealed_body ∧
  Sealed = class_of key_class Sealed_body ∧
  traits.visitable_matches Sealed = false ∧
  visit Sealed instance0 record_calls [] = None.
Proof. split_and!; reflexivity. Qed.

(** * Further properties of the header *)

(** ** The type list and the rank hierarchy *)

(** X1.  Appending [d1, ..., dn] one after the other to [TypeList<>] gives
    [TypeList<d1, ..., dn>], of size [n]; and [Append] is injective: two
    results are the same list only for the same list and the same
    element. *)
Theorem X1_Append_builds_in_order (A : Type) (ds : list A) :
  foldl Append [] ds = ds ∧
  TypeList_size (foldl Append [] ds) = length ds ∧
  (∀ (r r' : TypeList A) d d',
     Append r d = Append r' d' → r = r' ∧ d = d').
Proof.
  assert (H : ∀ acc : list A, foldl Append acc ds = acc ++ ds).
  { induction ds as [|d ds IH]; intros acc; simpl.
    - by rewrite app_nil_r.
    - by rewrite IH, Append_app, <- app_assoc. }
  split_and!.
  - apply H.
  - by rewrite H.
  - intros r r' d d'. rewrite !Append_app. intros Heq.
    apply app_inj_tail in Heq. done.
Qed.

Lemma X1_witness :
  Append [1; 2] 3 = Append [1; 2] 3 ∧ [1; 2] = [1; 2] ∧ 3 = 3.
Proof.
  assert (H : Append [1; 2] 3 = Append [1; 2] 3) by reflexivity.
  split; [exact H|].
  destruct (X1_Append_builds_in_order nat []) as (_ & _ & Hinj).
  exact (Hinj [1; 2] [1; 2] 3 3 H).
Defined.

(** X2.  [Rank<N>] has exactly the base classes [Rank<N-1>, ..., Rank<0>],
    nearest first.  An argument of type [Rank<a>] converts to a parameter
    of type [Rank<p>] exactly when [p] is at most [a], through [a - p]
    levels of the hierarchy; it never converts to a higher rank. *)
Theorem X2_Rank_conversion (a p : nat) :
  Rank_bases a = reverse (seq 0 a) ∧
  conversion_depth a p
  = (if decide (p ≤ a) then Some (a - p) else None) ∧
  conversion_depth a a = Some 0 ∧
  conversion_depth a (S a) = None.
Proof.
  split_and!.
  - induction a as [|n IH]; [done|].
    rewrite seq_S, reverse_snoc. simpl. by rewrite IH.
  - apply conversion_depth_spec.
  - rewrite conversion_depth_spec, decide_True by lia. f_equal. lia.
  - rewrite conversion_depth_spec, decide_False by lia. done.
Qed.

Lemma consider_selects {R : Type} arg (cands : list (nat * R)) :
  NoDup cands.*1 →
  selects arg cands (foldr (consider arg) no_viable cands).
Proof.
  induction cands as [|[rc Lc] cands IH]; intros Hnodup.
  - simpl. intros c Hc. by apply elem_of_nil in Hc.
  - rewrite fmap_cons in Hnodup. apply NoDup_cons in Hnodup as [Hc Hnodup].
    specialize (IH Hnodup). simpl in Hc |- *.
    destruct (foldr (consider arg) no_viable cands) as [|d L|d] eqn:Hres;
      simpl in IH; [| |done].
    + unfold consider. rewrite conversion_depth_spec. simpl.
      case_decide as Hv; simpl.
      * exists rc. split_and!; [by left|done|done|].
        intros c' [->|Hc']%elem_of_cons Hle; [done|].
        specialize (IH c' Hc'). lia.
      * intros c' [->|Hc']%elem_of_cons; [simpl; lia | by apply IH].
    + destruct IH as (r & Hin & Hr & -> & Hmax).
      assert (rc ≠ r) as Hne.
      { intros <-. apply Hc. apply list_elem_of_fmap. by exists (rc, L). }
      unfold consider. rewrite conversion_depth_spec. simpl.
      case_decide as Hv.
      * destruct (Nat.ltb_spec (arg - rc) (arg - r)).
        { simpl. exists rc. split_and!; [by left|done|done|].
          intros c' [->|Hc']%elem_of_cons Hle; [done|].
          specialize (Hmax c' Hc' Hle). lia. }
        destruct (Nat.ltb_spec (arg - r) (arg - rc)); [|lia].
        simpl. exists r. split_and!; [by right|done|done|].
        intros c' [->|Hc']%elem_of_cons Hle; [simpl; lia | by apply Hmax].
      * simpl. exists r. split_and!; [by right|done|done|].
        intros c' [->|Hc']%elem_of_cons Hle;
          [simpl in Hle; lia | by apply Hmax].
Qed.

(** X3.  For overloads whose parameter ranks are pairwise distinct, the
    call with a [Rank<arg>] argument is never ambiguous: it selects the
    overload of the highest rank that does not exceed [arg], whatever the
    order of the declarations, and it fails only when every overload has a
    rank above [arg]. *)
Theorem X3_resolution_selects_most_derived {R : Type} (arg : nat)
    (cands : list (nat * R)) :
  NoDup cands.*1 →
  match overload_resolution arg cands with
  | Some L =>
      ∃ r, (r, L) ∈ cands ∧ r ≤ arg ∧ ∀ c, c ∈ cands → c.1 ≤ arg → c.1 ≤ r
  | None => ∀ c, c ∈ cands → arg < c.1
  end.
Proof.
  intros Hsel%(consider_selects arg). unfold overload_resolution.
  destruct (foldr (consider arg) no_viable cands) as [|d L|d]; simpl in Hsel;
    [done| |done].
  destruct Hsel as (r & ? & ? & _ & ?). by exists r.
Qed.

Lemma X3_witness :
  NoDup [(201, 7); (0, 5); (3, 6)].*1 ∧
  ∃ r, (r, 6) ∈ [(201, 7); (0, 5); (3, 6)] ∧ r ≤ 200 ∧
       ∀ c, c ∈ [(201, 7); (0, 5); (3, 6)] → c.1 ≤ 200 → c.1 ≤ r.
Proof.
  assert (H : NoDup [(201, 7); (0, 5); (3, 6)].*1).
  { refine (bool_decide_unpack _ _). by vm_compute. }
  split; [exact H|].
  exact (X3_resolution_selects_most_derived 200
           [(201, 7); (0, 5); (3, 6)] H).
Defined.

(** X4.  [VISIT_STRUCT_MAKE_MEMBER_NAME] gives distinct fields distinct
    member records: it is injective, its result is never the field name
    itself, and never one of the four names the macros declare. *)
Theorem X4_member_record_names (a b : string) :
  (VISIT_STRUCT_MAKE_MEMBER_NAME a = VISIT_STRUCT_MAKE_MEMBER_NAME b →
   a = b) ∧
  VISIT_STRUCT_MAKE_MEMBER_NAME a ≠ a ∧
  VISIT_STRUCT_MAKE_MEMBER_NAME a ∉ begin_names ++ end_names.
Proof.
  split_and!.
  - unfold VISIT_STRUCT_MAKE_MEMBER_NAME. by intros ?%(inj (String.append _)).
  - apply MAKE_MEMBER_NAME_neq.
  - rewrite elem_of_app. unfold begin_names, end_names.
    rewrite !elem_of_cons, !elem_of_nil.
    intros [[H|[H|[]]]|[H|[H|[]]]]; by inversion H.
Qed.

Lemma X4_witness :
  VISIT_STRUCT_MAKE_MEMBER_NAME "x" = VISIT_STRUCT_MAKE_MEMBER_NAME "x" ∧
  "x" = "x".
Proof.
  split; [reflexivity|].
  exact (proj1 (X4_member_record_names "x" "x") eq_refl).
Defined.

(** ** What each macro adds *)

Lemma BEGIN_VISITABLES_Some NAME body body' :
  BEGIN_VISITABLES NAME body = Some body' →
  (VISIT_STRUCT_CURRENT_TYPE ∉ decl_name <$> body) ∧
  (0 ∉ (overloads Visit_Struct_Get_Visitables__ body).*1) ∧
  body' = body ++ [member_typedef (named_type NAME) VISIT_STRUCT_CURRENT_TYPE;
                   static_function [] Visit_Struct_Get_Visitables__ 0].
Proof.
  unfold BEGIN_VISITABLES. intros H.
  destruct (declare _ body) as [b1|] eqn:H1; simpl in H; [|done].
  pose proof (declare_Some_fresh (member_typedef _ _) _ _ eq_refl H1) as Hf.
  apply declare_Some in H1 as ->.
  pose proof (declare_overload_Some _ _ _ _ _ H) as Hr.
  apply declare_Some in H as ->.
  rewrite overloads_app in Hr. simpl in Hr. rewrite app_nil_r in Hr.
  split_and!; [done|done|by rewrite <- app_assoc].
Qed.

Lemma VISITABLE_Some TYPE NAME body body' :
  VISITABLE TYPE NAME body = Some body' →
  ∃ cur L,
    is_reference TYPE = false ∧
    (NAME ∉ decl_name <$> body) ∧
    lookup_typedef VISIT_STRUCT_CURRENT_TYPE body = Some (named_type cur) ∧
    VISIT_STRUCT_GET_REGISTERED_MEMBERS body = Some L ∧
    (TypeList_size L + 1
     ∉ (overloads Visit_Struct_Get_Visitables__ body).*1) ∧
    body' = body ++
      [data_member TYPE NAME;
       nested_struct (descriptor cur (TYPE, NAME));
       static_function (Append L (descriptor cur (TYPE, NAME)))
         Visit_Struct_Get_Visitables__ (TypeList_size L + 1)].
Proof.
  unfold VISITABLE. intros H.
  destruct (declare _ body) as [b1|] eqn:H1; simpl in H; [|done].
  pose proof (declare_Some_fresh (data_member _ _) _ _ eq_refl H1) as Hf.
  apply declare_Some in H1 as ->.
  rewrite lookup_typedef_app in H. simpl in H.
  destruct (lookup_typedef _ body) as [[cur| |]|] eqn:Hcur; simpl in H;
    try done.
  destruct (pointer_to_member TYPE) as [T|] eqn:HT; simpl in H; [|done].
  apply pointer_to_member_Some in HT as [-> (cv & n & HT)].
  destruct (declare (nested_struct _) _) as [b2|] eqn:H2; simpl in H; [|done].
  apply declare_Some in H2 as ->.
  unfold VISIT_STRUCT_GET_REGISTERED_MEMBERS in H.
  rewrite !overloads_app in H. simpl in H. rewrite !app_nil_r in H.
  fold (VISIT_STRUCT_GET_REGISTERED_MEMBERS body) in H.
  destruct (VISIT_STRUCT_GET_REGISTERED_MEMBERS body) as [L|] eqn:HL;
    simpl in H; [|done].
  pose proof (declare_overload_Some _ _ _ _ _ H) as Hr.
  apply declare_Some in H as ->.
  rewrite !overloads_app in Hr. simpl in Hr. rewrite !app_nil_r in Hr.
  exists cur, L. split_and!; try done; [by rewrite HT|].
  by rewrite <- !app_assoc.
Qed.

Lemma END_VISITABLES_Some body body' :
  END_VISITABLES body = Some body' →
  ∃ L,
    VISIT_STRUCT_GET_REGISTERED_MEMBERS body = Some L ∧
    (Visit_Struct_Registered_Members_List__ ∉ decl_name <$> body) ∧
    (Visit_Struct_Visitable_Structure_Tag__ ∉ decl_name <$> body) ∧
    body' = body ++ closing L.
Proof.
  unfold END_VISITABLES. intros H.
  destruct (VISIT_STRUCT_GET_REGISTERED_MEMBERS body) as [L|] eqn:HL;
    simpl in H; [|done].
  destruct (declare _ body) as [b1|] eqn:H1; simpl in H; [|done].
  pose proof (declare_Some_fresh (member_typedef _ _) _ _ eq_refl H1) as Hf1.
  apply declare_Some in H1 as ->.
  pose proof (declare_Some_fresh (member_typedef _ _) _ _ eq_refl H) as Hf2.
  apply declare_Some in H as ->.
  exists L. split_and!; [done|done| |by rewrite <- app_assoc].
  intros Hin. apply Hf2. rewrite fmap_app. apply elem_of_app. by left.
Qed.

(** Induction over the items of an accepted definition, in the order they
    are written. *)
Lemma define_ind (P : list item → class_body → Prop) :
  P [] [] →
  (∀ before i body body',
     define before = Some body → P before body →
     expand i body = Some body' → P (before ++ [i]) body') →
  ∀ items cls, define items = Some cls → P items cls.
Proof.
  intros Hnil Hstep items.
  induction items as [|i items IH] using rev_ind; intros cls H.
  - injection H as <-. done.
  - unfold define in H. rewrite run_app in H.
    destruct (run items []) as [body|] eqn:Hbody; simpl in H; [|done].
    destruct (expand i body) as [body'|] eqn:Hi; simpl in H; [|done].
    injection H as <-. eapply Hstep; [done|by apply IH|done].
Qed.

(** ** Every accepted definition *)

Lemma query_sound body L :
  NoDup (overloads Visit_Struct_Get_Visitables__ body).*1 →
  VISIT_STRUCT_GET_REGISTERED_MEMBERS body = Some L →
  ∃ r, (r, L) ∈ overloads Visit_Struct_Get_Visitables__ body.
Proof.
  intros Hsel%(consider_selects maxVisitableRank).
  unfold VISIT_STRUCT_GET_REGISTERED_MEMBERS, overload_resolution.
  destruct (foldr _ _ _) as [|d L'|d]; simpl in Hsel; intros [= <-].
  destruct Hsel as (r & ? & _). by exists r.
Qed.

Lemma define_overloads items cls :
  define items = Some cls →
  NoDup (overloads Visit_Struct_Get_Visitables__ cls).*1 ∧
  (∀ r L, (r, L) ∈ overloads Visit_Struct_Get_Visitables__ cls →
          Forall names_its_member L) ∧
  (∀ L, member_typedef (type_list L) Visit_Struct_Registered_Members_List__
        ∈ cls → Forall names_its_member L).
Proof.
  revert items cls. apply define_ind.
  { split_and!; [apply NoDup_nil_2| |]; intros; by apply elem_of_nil in H. }
  intros before i body body' _ (Hnodup & Hover & Htd) Hi.
  assert (Hquery : ∀ L, VISIT_STRUCT_GET_REGISTERED_MEMBERS body = Some L →
                        Forall names_its_member L).
  { intros L [r Hr]%query_sound; [by eapply Hover | done]. }
  destruct i as [NAME|TYPE NAME| |TYPE NAME]; simpl in Hi.
  - apply BEGIN_VISITABLES_Some in Hi as (_ & Hzero & ->).
    rewrite overloads_app. simpl. rewrite fmap_app. split_and!.
    + apply NoDup_app. split_and!; [done| |apply NoDup_singleton].
      by intros x Hx ->%list_elem_of_singleton.
    + intros r L [?| [= -> ->]%list_elem_of_singleton]%elem_of_app;
        [by eapply Hover | done].
    + intros L [?|Hin]%elem_of_app; [by apply Htd|].
      apply elem_of_cons in Hin as [[=]|Hin].
      by apply list_elem_of_singleton in Hin.
  - apply VISITABLE_Some in Hi as (cur & L & _ & _ & _ & HL & Hrank & ->).
    rewrite overloads_app. simpl. rewrite fmap_app. split_and!.
    + apply NoDup_app. split_and!; [done| |apply NoDup_singleton].
      by intros x Hx ->%list_elem_of_singleton.
    + intros r L' [?| [= -> ->]%list_elem_of_singleton]%elem_of_app;
        [by eapply Hover|].
      rewrite Append_app. apply Forall_app. split; [by apply Hquery|].
      by apply Forall_singleton.
    + intros L' [?|Hin]%elem_of_app; [by apply Htd|].
      rewrite !elem_of_cons, elem_of_nil in Hin.
      by destruct Hin as [|[|[|[]]]].
  - apply END_VISITABLES_Some in Hi as (L & HL & _ & _ & ->).
    rewrite overloads_app. simpl. rewrite app_nil_r. split_and!; [done..|].
    intros L' [?|Hin]%elem_of_app; [by apply Htd|].
    unfold closing in Hin. rewrite !elem_of_cons, elem_of_nil in Hin.
    destruct Hin as [[= ->]|[|[]]]; [by apply Hquery | done].
  - apply declare_Some in Hi as ->.
    rewrite overloads_app. simpl. rewrite app_nil_r. split_and!; [done..|].
    intros L' [?|Hin%list_elem_of_singleton]%elem_of_app; [by apply Htd|done].
Qed.

Lemma define_begun items cls :
  define items = Some cls →
  ((∀ n, begin_visitables n ∉ items) ∧
   overloads Visit_Struct_Get_Visitables__ cls = [] ∧
   lookup_typedef VISIT_STRUCT_CURRENT_TYPE cls = None ∧
   Forall is_plain items) ∨
  ((∃ n, begin_visitables n ∈ items) ∧
   (0, []) ∈ overloads Visit_Struct_Get_Visitables__ cls ∧
   VISIT_STRUCT_CURRENT_TYPE ∈ decl_name <$> cls).
Proof.
  revert items cls. apply define_ind.
  { left. split_and!; try done. intros n. apply not_elem_of_nil. }
  intros before i body body' _ IH Hi.
  destruct IH as [(Hno & Hover & Hcur & Hplain)|([n Hn] & Hzero & Hcur)].
  - destruct i as [NAME|TYPE NAME| |TYPE NAME]; simpl in Hi.
    + right. apply BEGIN_VISITABLES_Some in Hi as (_ & _ & ->).
      split_and!.
      * exists NAME. apply elem_of_app. right. by left.
      * rewrite overloads_app. apply elem_of_app. right. by left.
      * rewrite fmap_app. apply elem_of_app. right. by left.
    + apply VISITABLE_Some in Hi as (cur & L & _ & _ & Hcur' & _). congruence.
    + apply END_VISITABLES_Some in Hi as (L & HL & _).
      unfold VISIT_STRUCT_GET_REGISTERED_MEMBERS in HL. by rewrite Hover in HL.
    + left. apply declare_Some in Hi as ->. split_and!.
      * intros n [?|Hin%list_elem_of_singleton]%elem_of_app; [|done].
        by apply (Hno n).
      * by rewrite overloads_app, Hover.
      * by rewrite lookup_typedef_app, Hcur.
      * apply Forall_app. split; [done|]. by apply Forall_singleton.
  - right. apply expand_extends in Hi as (new & -> & _). split_and!.
    + exists n. apply elem_of_app. by left.
    + rewrite overloads_app. apply elem_of_app. by left.
    + rewrite fmap_app. apply elem_of_app. by left.
Qed.

Lemma define_ended items cls :
  define items = Some cls →
  end_visitables ∈ items →
  Visit_Struct_Visitable_Structure_Tag__ ∈ decl_name <$> cls.
Proof.
  revert items cls.
  apply (define_ind (λ items cls,
           end_visitables ∈ items →
           Visit_Struct_Visitable_Structure_Tag__ ∈ decl_name <$> cls)).
  { by intros ?%elem_of_nil. }
  intros before i body body' _ IH Hi.
  intros [Hin| <-%list_elem_of_singleton]%elem_of_app.
  - apply expand_extends in Hi as (new & -> & _).
    rewrite fmap_app. apply elem_of_app. left. by apply IH.
  - simpl in Hi. apply END_VISITABLES_Some in Hi as (L & _ & _ & _ & ->).
    rewrite fmap_app. apply elem_of_app. right. right. by left.
Qed.

(** X5.  In every accepted structure body the overloads of
    [Visit_Struct_Get_Visitables__] have pairwise distinct ranks, so the
    query for the registered members is never ambiguous; it resolves to a
    list at every point after [BEGIN_VISITABLES] and to nothing before
    it. *)
Theorem X5_query_after_begin (items : list item) (body : class_body) :
  define items = Some body →
  NoDup (overloads Visit_Struct_Get_Visitables__ body).*1 ∧
  (is_Some (VISIT_STRUCT_GET_REGISTERED_MEMBERS body) ↔
   ∃ n, begin_visitables n ∈ items).
Proof.
  intros H. pose proof (define_overloads _ _ H) as (Hnodup & _).
  split; [done|].
  pose proof (consider_selects maxVisitableRank _ Hnodup) as Hsel.
  unfold VISIT_STRUCT_GET_REGISTERED_MEMBERS, overload_resolution.
  destruct (define_begun _ _ H) as [(Hno & Hover & _)|(Hn & Hzero & _)].
  - rewrite Hover. simpl. split; [by intros [? ?]|].
    intros [n Hin]. by destruct (Hno n).
  - split; [done|]. intros _.
    destruct (foldr _ _ _) as [|d L|d]; simpl in Hsel; [|done|done].
    specialize (Hsel _ Hzero). simpl in Hsel. unfold maxVisitableRank in Hsel.
    lia.
Qed.

Lemma X5_witness :
  define (opened "Point" Point_fields) = Some Point_open ∧
  NoDup (overloads Visit_Struct_Get_Visitables__ Point_open).*1.
Proof.
  assert (H : define (opened "Point" Point_fields) = Some Point_open)
    by reflexivity.
  split; [exact H|]. exact (proj1 (X5_query_after_begin _ _ H)).
Defined.

Lemma at_most_once_snoc (Q : item → Prop) items x :
  at_most_once Q items →
  (Q x → ∀ a, a ∈ items → ¬ Q a) →
  at_most_once Q (items ++ [x]).
Proof.
  intros Hitems Hx i j a b Hi Hj Ha Hb.
  apply lookup_app_Some in Hi as [Hi|[Hi Hi']];
    apply lookup_app_Some in Hj as [Hj|[Hj Hj']].
  - by eapply Hitems.
  - apply list_lookup_singleton_Some in Hj' as [_ ->].
    destruct (Hx Hb a); [by eapply list_elem_of_lookup_2 | done].
  - apply list_lookup_singleton_Some in Hi' as [_ ->].
    destruct (Hx Ha b); [by eapply list_elem_of_lookup_2 | done].
  - apply list_lookup_singleton_Some in Hi' as [Hi' _].
    apply list_lookup_singleton_Some in Hj' as [Hj' _]. lia.
Qed.

(** X6.  The markers of an accepted definition: [BEGIN_VISITABLES] occurs
    at most once and [END_VISITABLES] occurs at most once (a second one
    declares a typedef again), and every [VISITABLE] and the
    [END_VISITABLES] come after a [BEGIN_VISITABLES]; before it only
    ordinary members are accepted. *)
Theorem X6_marker_discipline (items : list item) (cls : class_body) :
  define items = Some cls →
  at_most_once is_begin items ∧
  at_most_once (λ i, i = end_visitables) items ∧
  (∀ i x, items !! i = Some x → ¬ is_plain x → ¬ is_begin x →
          ∃ j y, j < i ∧ items !! j = Some y ∧ is_begin y).
Proof.
  revert items cls. apply define_ind.
  { split_and!; [by intros i j a b [=] | by intros i j a b [=]
                |by intros i x [=]]. }
  intros before x body body' Hbefore (Hb & He & Hafter) Hx.
  split_and!.
  - apply at_most_once_snoc; [done|]. intros Hxb a Ha Hab.
    destruct x as [NAME| | |]; try done. simpl in Hx.
    apply BEGIN_VISITABLES_Some in Hx as (Hfresh & _).
    destruct (define_begun _ _ Hbefore) as [(Hno & _)|(_ & _ & Hcur)];
      [|done].
    destruct a as [n| | |]; try done. by destruct (Hno n).
  - apply at_most_once_snoc; [done|]. intros -> a Ha ->.
    simpl in Hx. apply END_VISITABLES_Some in Hx as (L & _ & _ & Hfresh & _).
    apply Hfresh. by eapply define_ended.
  - intros i y Hi Hplain Hbegin.
    apply lookup_app_Some in Hi as [Hi|[Hlen Hi]].
    + destruct (Hafter i y Hi Hplain Hbegin) as (j & z & Hj & Hz & Hzb).
      exists j, z. split_and!; [done| |done]. by apply lookup_app_l_Some.
    + apply list_lookup_singleton_Some in Hi as [Hi ->].
      destruct (define_begun _ _ Hbefore)
        as [(_ & Hover & Hcur & _)|([n Hn] & _)].
      * destruct y as [NAME|TYPE NAME| |TYPE NAME]; simpl in *; try done.
        -- apply VISITABLE_Some in Hx as (? & ? & _ & _ & Hcur' & _). congruence.
        -- apply END_VISITABLES_Some in Hx as (L & HL & _).
           unfold VISIT_STRUCT_GET_REGISTERED_MEMBERS in HL.
           by rewrite Hover in HL.
      * apply list_elem_of_lookup in Hn as [j Hj].
        exists j, (begin_visitables n). split_and!; [|by apply lookup_app_l_Some|done].
        apply lookup_lt_Some in Hj. lia.
Qed.

Lemma X6_witness :
  define (registration "Point" Point_fields) = Some Point_class ∧
  ∃ j y, j < 1 ∧ registration "Point" Point_fields !! j = Some y ∧ is_begin y.
Proof.
  assert (H : define (registration "Point" Point_fields) = Some Point_class)
    by reflexivity.
  split; [exact H|].
  destruct (X6_marker_discipline _ _ H) as (_ & _ & Hafter).
  apply (Hafter 1 (visitable int "x") eq_refl); by intros [].
Defined.

(** ** The closed registry *)

Lemma define_frozen before after cls :
  define (before ++ end_visitables :: after) = Some cls →
  ∃ body L,
    define before = Some body ∧
    VISIT_STRUCT_GET_REGISTERED_MEMBERS body = Some L ∧
    (∃ new, cls = body ++ closing L ++ new) ∧
    lookup_typedef Visit_Struct_Registered_Members_List__ cls
    = Some (type_list L) ∧
    traits.visitable_matches cls = true.
Proof.
  intros Hdef. pose proof Hdef as H. unfold define in H.
  rewrite run_app in H.
  destruct (run before []) as [body|] eqn:Hbody; simpl in H; [|done].
  destruct (END_VISITABLES body) as [b1|] eqn:Hend; simpl in H; [|done].
  apply run_extends in H as (new & Hcls).
  apply END_VISITABLES_Some in Hend as (L & HL & Hlist & Htag & ->).
  exists body, L. split_and!; try done.
  - exists new. by rewrite Hcls, <- app_assoc.
  - by rewrite Hcls, lookup_typedef_app, closing_lookup_list.
  - apply (define_visitable_matches _ _ Hdef).
    by rewrite Hcls, lookup_typedef_app, closing_lookup_tag.
Qed.

Lemma registering_field_names sname fs body x :
  registering sname fs body →
  x ∈ (visitable_fields fs).*2 → x ∈ decl_name <$> body.
Proof.
  intros Inv Hx. rewrite (reg_names _ _ _ Inv). apply elem_of_app. right.
  apply elem_of_expanded_names. left.
  eapply elem_of_sublist; [done | apply visitable_names_sublist].
Qed.

(** X7.  [END_VISITABLES] freezes the registry: whatever is declared after
    it in the structure, further [VISITABLE] fields included, the visit
    makes the calls for the fields registered before the end marker and
    no other.  A field declared with [VISITABLE] after the end marker is a
    data member of the structure, under a name none of the visited fields
    has. *)
Theorem X7_registry_frozen_at_end sname fs (after : list item)
    (cls : class_body) :
  define (registration sname fs ++ after) = Some cls →
  (∀ (Σ : Type) (v : visitor_of Σ) s σ,
     traits.visitable_apply cls v s σ
     = Some (calls_on v s (take maxVisitableRank (visitable_fields fs)) σ)) ∧
  (∀ TYPE NAME, visitable TYPE NAME ∈ after →
     data_member TYPE NAME ∈ cls ∧ NAME ∉ (visitable_fields fs).*2).
Proof.
  intros H.
  assert (Hshape : registration sname fs ++ after
                   = opened sname fs ++ end_visitables :: after).
  { rewrite registration_opened, <- app_assoc. done. }
  split.
  - pose proof H as Hdef. rewrite Hshape in H.
    apply define_frozen in H as (body & L & Hbody & HL & _ & Hlist & Htag).
    apply (define_member_type _ _ _ _ Hdef) in Hlist.
    apply opened_registering in Hbody.
    rewrite (registering_query _ _ _ Hbody) in HL. injection HL as <-.
    intros Σ v s σ. unfold traits.visitable_apply. rewrite Htag, Hlist.
    unfold descriptors. rewrite <- fmap_take, calls_on_descriptors.
    by rewrite std_forward_deduce.
  - intros TYPE NAME (a1 & a2 & ->)%list_elem_of_split.
    unfold define in H. rewrite run_app in H.
    destruct (run (registration sname fs) []) as [c0|] eqn:Hc0; simpl in H;
      [|done].
    rewrite run_app in H.
    destruct (run a1 c0) as [c1|] eqn:Hc1; simpl in H; [|done].
    destruct (VISITABLE TYPE NAME c1) as [c2|] eqn:Hc2; simpl in H; [|done].
    apply run_extends in H as (new2 & ->).
    apply run_extends in Hc1 as (new1 & ->).
    apply VISITABLE_Some in Hc2 as (cur & L & _ & Hfresh & _ & _ & _ & ->).
    split.
    + apply elem_of_app. left. apply elem_of_app. right. by left.
    + intros Hin. apply Hfresh. rewrite fmap_app. apply elem_of_app. left.
      apply registration_closed in Hc0 as (body & _ & Inv & -> & _).
      rewrite fmap_app. apply elem_of_app. left.
      by eapply registering_field_names.
Qed.

Lemma X7_witness :
  define (registration "Point" Point_fields ++ [visitable int "z"])
  = Some Point_then_z_class ∧
  traits.visitable_apply Point_then_z_class record_calls instance0 []
  = Some (calls_on record_calls instance0
            (take maxVisitableRank (visitable_fields Point_fields)) []) ∧
  data_member int "z" ∈ Point_then_z_class.
Proof.
  assert (H : define (registration "Point" Point_fields
                        ++ [visitable int "z"])
              = Some Point_then_z_class) by reflexivity.
  split; [exact H|].
  destruct (X7_registry_frozen_at_end "Point" Point_fields _ _ H)
    as [Hvisit Hmember].
  split; [apply Hvisit|]. apply (Hmember int "z"). left.
Defined.

(** ** The name and the reference of a call *)

Lemma lookup_typedef_elem alias body t :
  lookup_typedef alias body = Some t → member_typedef t alias ∈ body.
Proof.
  induction body as [|d body IH]; [done|].
  destruct d as [| target a | |]; simpl; try (intros; right; by apply IH).
  destruct (String.eqb_spec alias a) as [->|].
  - intros [= ->]. by left.
  - intros. right. by apply IH.
Qed.

Lemma structure_helper_record_calls Ms s calls :
  structure_helper_apply_visitor Ms record_calls s calls
  = calls ++ ((λ M, (member_name M,
                     member_ptr_helper_apply (helper_T M) (member_ptr M) s))
                <$> Ms).
Proof.
  rewrite structure_helper_apply_visitor_foldl. revert calls.
  induction Ms as [|M Ms IH]; intros calls; simpl.
  - by rewrite app_nil_r.
  - rewrite IH. unfold record_calls. by rewrite <- app_assoc.
Qed.

(** Every member record of an accepted definition points to a data member
    of the structure, declared with the type the record holds. *)
Lemma define_record_members items cls :
  define items = Some cls →
  (∀ r L, (r, L) ∈ overloads Visit_Struct_Get_Visitables__ cls →
          Forall (points_into cls) L) ∧
  (∀ L, member_typedef (type_list L) Visit_Struct_Registered_Members_List__
        ∈ cls → Forall (points_into cls) L).
Proof.
  revert items cls. apply define_ind.
  { split; intros; by apply elem_of_nil in H. }
  intros before i body body' Hdef (Hover & Htd) Hi.
  pose proof (proj1 (define_overloads _ _ Hdef)) as Hnodup.
  assert (Hquery : ∀ L, VISIT_STRUCT_GET_REGISTERED_MEMBERS body = Some L →
                        Forall (points_into body) L).
  { intros L [r Hr]%query_sound; [by eapply Hover | done]. }
  assert (Hmono : ∀ new L, Forall (points_into body) L →
                           Forall (points_into (body ++ new)) L).
  { intros new L HL. eapply Forall_impl; [exact HL|]. intros M HM.
    unfold points_into. apply elem_of_app. by left. }
  destruct i as [NAME|TYPE NAME| |TYPE NAME]; simpl in Hi.
  - apply BEGIN_VISITABLES_Some in Hi as (_ & _ & ->).
    rewrite overloads_app. simpl. split.
    + intros r L [?| [= -> ->]%list_elem_of_singleton]%elem_of_app;
        [apply Hmono; by eapply Hover | done].
    + intros L [?|Hin]%elem_of_app; [apply Hmono; by apply Htd|].
      apply elem_of_cons in Hin as [[=]|Hin].
      by apply list_elem_of_singleton in Hin.
  - apply VISITABLE_Some in Hi as (cur & L & _ & _ & _ & HL & _ & ->).
    rewrite overloads_app. simpl. split.
    + intros r L' [?| [= -> ->]%list_elem_of_singleton]%elem_of_app;
        [apply Hmono; by eapply Hover|].
      rewrite Append_app. apply Forall_app. split; [by apply Hmono, Hquery|].
      apply Forall_singleton. unfold points_into. simpl.
      apply elem_of_app. right. by left.
    + intros L' [?|Hin]%elem_of_app; [apply Hmono; by apply Htd|].
      rewrite !elem_of_cons, elem_of_nil in Hin.
      by destruct Hin as [|[|[|[]]]].
  - apply END_VISITABLES_Some in Hi as (L & HL & _ & _ & ->).
    rewrite overloads_app. simpl. rewrite app_nil_r. split.
    + intros r L' ?. apply Hmono. by eapply Hover.
    + intros L' [?|Hin]%elem_of_app; [apply Hmono; by apply Htd|].
      unfold closing in Hin. rewrite !elem_of_cons, elem_of_nil in Hin.
      destruct Hin as [[= ->]|[|[]]]; [by apply Hmono, Hquery | done].
  - apply declare_Some in Hi as ->.
    rewrite overloads_app. simpl. rewrite app_nil_r. split.
    + intros r L' ?. apply Hmono. by eapply Hover.
    + intros L' [?|Hin%list_elem_of_singleton]%elem_of_app;
        [apply Hmono; by apply Htd | done].
Qed.

(** X8.  In a visit of an instance of any accepted structure, whatever the
    order in which its definition uses the macros, every call hands the
    visitor the name of a data member of the structure together with the
    reference its accessor yields to that very member of the visited
    object; where the declared type of the member is not const, the
    reference is qualified as the instance is. *)
Theorem X8_name_matches_reference (items : list item) (cls : class_body)
    (s : struct_ref) (calls : list (string * field_ref)) :
  define items = Some cls →
  traits.visitable_apply cls record_calls s [] = Some calls →
  ∀ name r, (name, r) ∈ calls →
    fr_member r = name ∧ fr_object r = sr_object s ∧
    ∃ TYPE, data_member TYPE name ∈ cls ∧
            r = member_ptr_helper_apply TYPE name s ∧
            (type_cv TYPE = cv_none → field_access r = struct_access s).
Proof.
  intros Hdef Hcalls name r Hin.
  pose proof (define_overloads _ _ Hdef) as (_ & _ & Htd).
  pose proof (define_record_members _ _ Hdef) as (_ & Hmem).
  unfold traits.visitable_apply in Hcalls.
  destruct (traits.visitable_matches cls); [|done].
  destruct (member_type cls _) as [[|Ms|]|] eqn:Hlist; try done.
  apply member_type_lookup in Hlist; [|done].
  apply lookup_typedef_elem in Hlist.
  pose proof (Htd _ Hlist) as Hnames. pose proof (Hmem _ Hlist) as Hpoints.
  rewrite std_forward_deduce, structure_helper_record_calls in Hcalls.
  injection Hcalls as <-. simpl in Hin.
  apply list_elem_of_fmap in Hin as (M & [= -> ->] & HM).
  rewrite Forall_forall in Hnames. destruct (Hnames M HM) as [Hptr _].
  rewrite Forall_forall in Hpoints. specialize (Hpoints M HM).
  unfold points_into in Hpoints. rewrite Hptr in *.
  split_and!.
  - by destruct s as [o [] []].
  - by destruct s as [o [] []].
  - exists (helper_T M). split_and!; [done..|].
    intros HT. unfold field_access, struct_access.
    destruct s as [o [] []]; simpl; by rewrite ?HT.
Qed.

Lemma X8_witness :
  define Point_then_z = Some Point_then_z_class ∧
  traits.visitable_apply Point_then_z_class record_calls
    const_instance0 []
  = Some (call_for const_instance0 <$> visitable_fields Point_fields) ∧
  ("y", member_ptr_helper_apply int "y" const_instance0)
  ∈ call_for const_instance0 <$> visitable_fields Point_fields ∧
  fr_member (member_ptr_helper_apply int "y" const_instance0) = "y".
Proof.
  assert (H1 : define Point_then_z = Some Point_then_z_class) by reflexivity.
  assert (H2 : traits.visitable_apply Point_then_z_class record_calls
                 const_instance0 []
               = Some (call_for const_instance0
                         <$> visitable_fields Point_fields)) by reflexivity.
  assert (H3 : ("y", member_ptr_helper_apply int "y" const_instance0)
               ∈ call_for const_instance0 <$> visitable_fields Point_fields).
  { right. left. }
  split; [exact H1|]. split; [exact H2|]. split; [exact H3|].
  exact (proj1 (X8_name_matches_reference _ _ _ _ H1 H2 _ _ H3)).
Defined.

(** ** Every accepted registration *)

Lemma call_for_names s (fields : list (cpp_type * string)) :
  (call_for s <$> fields).*1 = fields.*2.
Proof. rewrite <- list_fmap_compose. by apply list_fmap_ext. Qed.

Lemma plain_name_not_visitable sname fs body TYPE NAME :
  registering sname fs body →
  plain_field TYPE NAME ∈ fs → NAME ∉ (visitable_fields fs).*2.
Proof.
  intros Inv (l1 & l2 & ->)%list_elem_of_split.
  pose proof (reg_nodup _ _ _ Inv) as Hnodup.
  apply NoDup_app in Hnodup as (_ & _ & Hnodup).
  rewrite bind_app, bind_cons in Hnodup. simpl in Hnodup.
  apply NoDup_app in Hnodup as (_ & Hl1 & Hnodup).
  apply NoDup_cons in Hnodup as [Hl2 _].
  rewrite visitable_fields_app. simpl. rewrite fmap_app.
  intros [Hin|Hin]%elem_of_app.
  - apply (Hl1 NAME); [|by left].
    eapply elem_of_sublist; [done | apply visitable_names_sublist].
  - apply Hl2. eapply elem_of_sublist; [done | apply visitable_names_sublist].
Qed.

(** X9.  For every accepted registration, whatever its number of fields:
    the visit calls the visitor once for each of the first
    [min n maxVisitableRank] fields declared with [VISITABLE], in
    declaration order and under pairwise distinct names; an ordinary
    member declared between the markers is never handed to the visitor. *)
Theorem X9_visit_of_any_registration sname fs cls s :
  define (registration sname fs) = Some cls →
  ∃ calls,
    traits.visitable_apply cls record_calls s [] = Some calls ∧
    calls = call_for s <$> take maxVisitableRank (visitable_fields fs) ∧
    length calls = length (visitable_fields fs) `min` maxVisitableRank ∧
    NoDup calls.*1 ∧
    ∀ TYPE NAME, plain_field TYPE NAME ∈ fs → NAME ∉ calls.*1.
Proof.
  intros Hcls.
  exists (call_for s <$> take maxVisitableRank (visitable_fields fs)).
  rewrite (visit_registered _ _ _ _ _ _ Hcls), calls_on_record_calls.
  split; [done|]. split; [done|].
  apply registration_closed in Hcls as (body & _ & Inv & _).
  rewrite call_for_names. split_and!.
  - rewrite length_fmap, length_take. lia.
  - rewrite fmap_take. eapply sublist_NoDup; [|apply sublist_take].
    by eapply registering_names_NoDup.
  - intros TYPE NAME Hplain Hin.
    eapply plain_name_not_visitable; [done..|].
    rewrite fmap_take in Hin.
    eapply elem_of_sublist; [done | apply sublist_take].
Qed.

Lemma X9_witness :
  define (registration "Mixed" Mixed_fields) = Some Mixed_class ∧
  ∃ calls,
    traits.visitable_apply Mixed_class record_calls instance0 []
    = Some calls ∧
    length calls = 2 ∧ "hidden" ∉ calls.*1.
Proof.
  assert (H : define (registration "Mixed" Mixed_fields) = Some Mixed_class)
    by reflexivity.
  split; [exact H|].
  destruct (X9_visit_of_any_registration "Mixed" Mixed_fields Mixed_class
              instance0 H) as (calls & Hcalls & _ & Hlen & _ & Hplain).
  exists calls. split; [exact Hcalls|]. split; [exact Hlen|].
  apply (Hplain int). right. left.
Defined.

(** X10.  Every field of an accepted registration is a data member of the
    structure with the type it was declared with, and every field declared
    with [VISITABLE] has its member record in the structure: also the
    fields beyond the first [maxVisitableRank], which the registry does not
    hold. *)
Theorem X10_fields_are_members sname fs cls :
  define (registration sname fs) = Some cls →
  ∀ TYPE NAME,
    (visitable_field TYPE NAME ∈ fs →
     data_member TYPE NAME ∈ cls ∧
     nested_struct (descriptor sname (TYPE, NAME)) ∈ cls) ∧
    (plain_field TYPE NAME ∈ fs → data_member TYPE NAME ∈ cls).
Proof.
  intros Hcls TYPE NAME.
  assert (Hsplit : ∀ f l1 l2, fs = l1 ++ f :: l2 →
            ∃ b1 b2 new, registering sname l1 b1 ∧
              expand (field_item f) b1 = Some b2 ∧ cls = b2 ++ new).
  { intros f l1 l2 ->. unfold define in Hcls.
    assert (registration sname (l1 ++ f :: l2)
            = opened sname l1 ++ field_item f
                :: ((field_item <$> l2) ++ [end_visitables])) as Hshape.
    { unfold registration, opened. by rewrite fmap_app, <- app_assoc. }
    rewrite Hshape, run_app in Hcls.
    destruct (run (opened sname l1) []) as [b1|] eqn:Hb1; simpl in Hcls;
      [|done].
    destruct (expand (field_item f) b1) as [b2|] eqn:Hb2; simpl in Hcls;
      [|done].
    apply run_extends in Hcls as (new & ->).
    exists b1, b2, new. split_and!; [by apply opened_registering|done..]. }
  split.
  - intros (l1 & l2 & Hfs)%list_elem_of_split.
    destruct (Hsplit _ _ _ Hfs) as (b1 & b2 & new & Inv & Hb2 & ->).
    simpl in Hb2.
    apply VISITABLE_Some in Hb2 as (cur & L & _ & _ & Hcur & _ & _ & ->).
    rewrite (reg_current _ _ _ Inv) in Hcur. injection Hcur as <-.
    split; apply elem_of_app; left; apply elem_of_app; right.
    + by left.
    + right. by left.
  - intros (l1 & l2 & Hfs)%list_elem_of_split.
    destruct (Hsplit _ _ _ Hfs) as (b1 & b2 & new & Inv & Hb2 & ->).
    simpl in Hb2. apply declare_Some in Hb2 as ->.
    apply elem_of_app. left. apply elem_of_app. right. by left.
Qed.

Lemma X10_witness :
  define (registration "Mixed" Mixed_fields) = Some Mixed_class ∧
  plain_field int "hidden" ∈ Mixed_fields ∧
  data_member int "hidden" ∈ Mixed_class.
Proof.
  assert (H1 : define (registration "Mixed" Mixed_fields) = Some Mixed_class)
    by reflexivity.
  assert (H2 : plain_field int "hidden" ∈ Mixed_fields).
  { right. left. }
  split; [exact H1|]. split; [exact H2|].
  exact (proj2 (X10_fields_are_members "Mixed" Mixed_fields Mixed_class H1
                  int "hidden") H2).
Defined.

(** The name of a field, visitable or ordinary. *)
Lemma field_names_sublist fs :
  (field_name <$> fs) `sublist_of` fs ≫= declared_names.
Proof.
  induction fs as [|[TYPE NAME|TYPE NAME] fs IH]; [done| |].
  - rewrite bind_cons. simpl. apply sublist_skip. by apply sublist_cons.
  - rewrite bind_cons. simpl. by apply sublist_skip.
Qed.

(** X11.  What an accepted registration cannot contain: two fields of one
    name, whether declared with [VISITABLE] or as ordinary members; a field
    named like one of the four members the macros declare themselves
    ([VISIT_STRUCT_CURRENT_TYPE], [Visit_Struct_Get_Visitables__],
    [Visit_Struct_Registered_Members_List__],
    [Visit_Struct_Visitable_Structure_Tag__]); more than
    [maxVisitableRank + 1] fields declared with [VISITABLE]. *)
Theorem X11_accepted_names sname fs cls :
  define (registration sname fs) = Some cls →
  NoDup (begin_names ++ end_names ++ (field_name <$> fs)) ∧
  length (visitable_fields fs) ≤ S maxVisitableRank.
Proof.
  intros Hcls. unfold define in Hcls.
  rewrite registration_opened, run_app in Hcls.
  destruct (run (opened sname fs) []) as [body|] eqn:Hbody; simpl in Hcls;
    [|done].
  destruct (END_VISITABLES body) as [cls'|] eqn:Hend; simpl in Hcls; [|done].
  pose proof (opened_registering _ _ _ Hbody) as Inv.
  apply END_VISITABLES_Some in Hend as (L & _ & Hlist & Htag & _).
  split; [|apply Inv].
  pose proof (reg_nodup _ _ _ Inv) as Hnodup.
  assert (Hfresh : ∀ x, x ∈ begin_names ++ (fs ≫= declared_names) →
                        x ∈ decl_name <$> body).
  { intros x Hx. rewrite (reg_names _ _ _ Inv).
    apply elem_of_app in Hx as [?|?]; apply elem_of_app; [by left|].
    right. apply elem_of_expanded_names. by left. }
  assert (Hend : ∀ x, x ∈ end_names →
                      x ∉ begin_names ++ (fs ≫= declared_names)).
  { intros x Hx Hin%Hfresh. unfold end_names in Hx.
    rewrite !elem_of_cons, elem_of_nil in Hx.
    destruct Hx as [->|[->|[]]]; done. }
  apply NoDup_app in Hnodup as (Hbegin & Hdisj & Hdecl).
  assert (Hsub : ∀ x, x ∈ field_name <$> fs → x ∈ fs ≫= declared_names).
  { intros x Hx. eapply elem_of_sublist; [done|apply field_names_sublist]. }
  apply NoDup_app. split_and!; [done| |].
  - intros x Hx [Hin|Hin]%elem_of_app.
    + apply (Hend x Hin). apply elem_of_app. by left.
    + apply (Hdisj x Hx). by apply Hsub.
  - apply NoDup_app. split_and!.
    + refine (bool_decide_unpack _ _). by vm_compute.
    + intros x Hx Hin. apply (Hend x Hx). apply elem_of_app. right.
      by apply Hsub.
    + eapply sublist_NoDup; [done | apply field_names_sublist].
Qed.

Lemma X11_witness :
  define (registration "Mixed" Mixed_fields) = Some Mixed_class ∧
  NoDup (begin_names ++ end_names ++ (field_name <$> Mixed_fields)).
Proof.
  assert (H : define (registration "Mixed" Mixed_fields) = Some Mixed_class)
    by reflexivity.
  split; [exact H|].
  exact (proj1 (X11_accepted_names "Mixed" Mixed_fields Mixed_class H)).
Defined.

(** ** Visits that write *)

Lemma calls_on_assign_rejected {value : Type} NAME (v : value) s fields :
  calls_on (assign NAME v) s fields None = None.
Proof.
  unfold calls_on. induction fields as [|f fields IH]; [done|].
  simpl. unfold assign at 2. by destruct (String.eqb f.2 NAME).
Qed.

Lemma calls_on_assign_const {value : Type} NAME (v : value) s fields σ :
  sr_cv s = cv_const →
  NAME ∈ fields.*2 →
  calls_on (assign NAME v) s fields (Some σ) = None.
Proof.
  intros Hs. induction fields as [|f fields IH]; intros Hin.
  - by apply elem_of_nil in Hin.
  - rewrite fmap_cons in Hin.
    unfold calls_on. simpl. fold (calls_on (assign NAME v) s fields).
    unfold assign at 2. destruct (String.eqb_spec f.2 NAME) as [Heq|Hne].
    + simpl. replace (write_ref _ v σ) with (@None (store value)).
      * apply calls_on_assign_rejected.
      * destruct s as [o [] []]; simpl in Hs; done.
    + apply IH. apply elem_of_cons in Hin as [?|?]; [congruence|done].
Qed.

(** X12.  In a visit of a read-only instance every reference the visitor
    receives is a reference to const, through which nothing can be
    assigned: a visit whose visitor assigns through the reference of one
    of the visited fields is rejected, and the memory is not written. *)
Theorem X12_read_only_visit {value : Type} (sname : string)
    (fs : list field_decl) (cls : class_body) (s : struct_ref)
    (calls : list (string * field_ref)) :
  define (registration sname fs) = Some cls →
  sr_cv s = cv_const →
  traits.visitable_apply cls record_calls s [] = Some calls →
  (∀ name r, (name, r) ∈ calls →
     fr_cv r = cv_const ∧
     ∀ (v : value) (σ : store value), write_ref r v σ = None) ∧
  (∀ NAME (v : value) (σ : store value), NAME ∈ calls.*1 →
     traits.visitable_apply cls (assign NAME v) s (Some σ) = Some None).
Proof.
  intros Hcls Hs Hcalls.
  rewrite (visit_registered _ _ _ _ _ _ Hcls), calls_on_record_calls in Hcalls.
  injection Hcalls as <-. split.
  - intros name r (f & [= -> ->] & _)%list_elem_of_fmap.
    destruct s as [o [] []]; simpl in Hs; done.
  - intros NAME v σ Hin.
    pose proof (call_for_names s
                  (take maxVisitableRank (visitable_fields fs))) as Hnames.
    unfold call_for in Hnames. rewrite Hnames in Hin.
    rewrite (visit_registered _ _ _ _ _ _ Hcls). f_equal.
    by apply calls_on_assign_const.
Qed.

Lemma X12_witness :
  define (registration "Point" Point_fields) = Some Point_class ∧
  sr_cv const_instance0 = cv_const ∧
  traits.visitable_apply Point_class (assign "x" 9) const_instance0
    (Some Point_memory)
  = Some None.
Proof.
  assert (H1 : define (registration "Point" Point_fields) = Some Point_class)
    by reflexivity.
  assert (H2 : sr_cv const_instance0 = cv_const) by reflexivity.
  assert (H3 : traits.visitable_apply Point_class record_calls
                 const_instance0 []
               = Some (call_for const_instance0
                         <$> visitable_fields Point_fields)) by reflexivity.
  split; [exact H1|]. split; [exact H2|].
  apply (proj2 (X12_read_only_visit "Point" Point_fields Point_class
                  const_instance0 _ H1 H2 H3) "x" 9 Point_memory).
  left.
Defined.

Lemma calls_on_assign_all {value : Type} (g : string → value)
    (s : struct_ref) (fields : list (cpp_type * string)) (σ : store value) :
  sr_cv s = cv_none →
  Forall (λ f, type_cv f.1 = cv_none) fields →
  calls_on (assign_all g) s fields (Some σ)
  = Some (filled g (sr_object s) fields σ).
Proof.
  intros Hs Hfields. unfold calls_on, filled. revert σ.
  induction Hfields as [|f fields Hf Hfields IH]; intros σ; [done|].
  simpl. rewrite <- IH. unfold assign_all at 2. simpl.
  by rewrite write_ref_member.
Qed.

Lemma calls_on_assign_all_rejected {value : Type} (g : string → value)
    (s : struct_ref) (fields : list (cpp_type * string)) :
  calls_on (assign_all g) s fields None = None.
Proof.
  unfold calls_on. induction fields as [|f fields IH]; [done|]. by simpl.
Qed.

Lemma calls_on_assign_all_const {value : Type} (g : string → value)
    (s : struct_ref) (fields : list (cpp_type * string)) (σ : store value) :
  sr_cv s = cv_none →
  Exists (λ f, type_cv f.1 = cv_const) fields →
  calls_on (assign_all g) s fields (Some σ) = None.
Proof.
  intros Hs Hfields. revert σ.
  induction fields as [|f fields IH]; intros σ.
  - by apply Exists_nil in Hfields.
  - unfold calls_on. simpl. destruct (type_cv f.1) eqn:Hf.
    + rewrite write_ref_member by done. apply IH.
      apply Exists_cons in Hfields as [?|?]; [congruence | done].
    + replace (write_ref _ _ σ) with (@None (store value)).
      * apply (calls_on_assign_all_rejected g s fields).
      * unfold write_ref. destruct s as [o [] []]; simpl in *; by rewrite ?Hf.
Qed.

Lemma filled_lookup_out {value : Type} (g : string → value) (o : nat)
    (fields : list (cpp_type * string)) (σ : store value) (o' : nat)
    (m : string) :
  o' ≠ o ∨ m ∉ fields.*2 →
  filled g o fields σ !! (o', m) = σ !! (o', m).
Proof.
  unfold filled. revert σ.
  induction fields as [|f fields IH]; intros σ Hout; [done|].
  simpl. rewrite IH.
  - apply lookup_insert_ne. intros [= Ho Hm]. subst o' m.
    destruct Hout as [?|Hout]; [done|]. apply Hout. by left.
  - destruct Hout as [?|Hout]; [by left|]. right.
    intros Hin. apply Hout. by right.
Qed.

Lemma filled_lookup_in {value : Type} (g : string → value) (o : nat)
    (fields : list (cpp_type * string)) (σ : store value) (m : string) :
  m ∈ fields.*2 → filled g o fields σ !! (o, m) = Some (g m).
Proof.
  revert σ. induction fields as [|f fields IH]; intros σ Hin.
  - by apply elem_of_nil in Hin.
  - rewrite fmap_cons in Hin.
    destruct (decide (m ∈ fields.*2)) as [Hm|Hm].
    + unfold filled. simpl. by apply IH.
    + apply elem_of_cons in Hin as [->|?]; [|done].
      unfold filled. simpl.
      fold (filled g o fields (<[(o, f.2) := g f.2]> σ)).
      rewrite filled_lookup_out by by right. apply lookup_insert_eq.
Qed.

(** X13.  Filling and reading back.  For a non-const instance of an
    accepted registration whose visited fields are declared with types
    that are not const, a visit whose visitor assigns [g name] through
    every reference it receives stores [g name] in every visited field;
    where one of the visited fields is declared with a const type, the
    assignment through its reference is rejected.  A visit of the same
    object, through a const reference or not, that reads each field
    through its reference sees the stored values, in declaration order;
    and no address outside the visited fields of this object is changed:
    not another object, not an ordinary member, not a field the registry
    does not hold. *)
Theorem X13_fill_and_read_back {value : Type} (sname : string)
    (fs : list field_decl) (cls : class_body) (s : struct_ref)
    (g : string → value) (σ : store value) :
  define (registration sname fs) = Some cls →
  sr_cv s = cv_none →
  (Forall (λ f, type_cv f.1 = cv_none)
     (take maxVisitableRank (visitable_fields fs)) →
   traits.visitable_apply cls (assign_all g) s (Some σ)
   = Some (Some (filled g (sr_object s)
                   (take maxVisitableRank (visitable_fields fs)) σ))) ∧
  (Exists (λ f, type_cv f.1 = cv_const)
     (take maxVisitableRank (visitable_fields fs)) →
   traits.visitable_apply cls (assign_all g) s (Some σ) = Some None) ∧
  (∀ s', sr_object s' = sr_object s →
     traits.visitable_apply cls
       (emit (filled g (sr_object s)
                (take maxVisitableRank (visitable_fields fs)) σ)) s' []
     = Some ((λ f, (f.2, Some (g f.2)))
               <$> take maxVisitableRank (visitable_fields fs))) ∧
  (∀ o m, o ≠ sr_object s ∨
          m ∉ (take maxVisitableRank (visitable_fields fs)).*2 →
     filled g (sr_object s)
       (take maxVisitableRank (visitable_fields fs)) σ !! (o, m)
     = σ !! (o, m)).
Proof.
  intros Hcls Hs. split_and!.
  - intros Hfields. rewrite (visit_registered _ _ _ _ _ _ Hcls). f_equal.
    by apply calls_on_assign_all.
  - intros Hfields. rewrite (visit_registered _ _ _ _ _ _ Hcls). f_equal.
    by apply calls_on_assign_all_const.
  - intros s' Hs'.
    rewrite (visit_registered _ _ _ _ _ _ Hcls), calls_on_emit, Hs'. simpl.
    f_equal. apply list_fmap_ext. intros i f Hf. f_equal.
    apply filled_lookup_in. apply list_elem_of_fmap. exists f.
    split; [done|]. by eapply list_elem_of_lookup_2.
  - intros o m. apply filled_lookup_out.
Qed.

Lemma X13_witness :
  define (registration "Mixed" Mixed_fields) = Some Mixed_class ∧
  sr_cv instance0 = cv_none ∧
  Forall (λ f, type_cv f.1 = cv_none)
    (take maxVisitableRank (visitable_fields Mixed_fields)) ∧
  traits.visitable_apply Mixed_class (assign_all (λ _, 7)) instance0
    (Some Point_memory)
  = Some (Some (filled (λ _, 7) (sr_object instance0)
                  (take maxVisitableRank (visitable_fields Mixed_fields))
                  Point_memory)).
Proof.
  assert (H1 : define (registration "Mixed" Mixed_fields) = Some Mixed_class)
    by reflexivity.
  assert (H2 : sr_cv instance0 = cv_none) by reflexivity.
  assert (H3 : Forall (λ f, type_cv f.1 = cv_none)
                 (take maxVisitableRank (visitable_fields Mixed_fields))).
  { repeat constructor. }
  split; [exact H1|]. split; [exact H2|]. split; [exact H3|].
  exact (proj1 (X13_fill_and_read_back "Mixed" Mixed_fields
                  Mixed_class instance0 (λ _, 7) Point_memory H1 H2) H3).
Defined.

(** ** Adding a field *)

(** X14.  Adding one more declaration at the end of a registration: a
    field declared with [VISITABLE] adds exactly one visitor call, after
    all the calls of the shorter structure and on the state they leave, as
    long as the shorter structure has fewer than [maxVisitableRank]
    visitable fields, and adds no call from then on; an ordinary member
    never adds a call. *)
Theorem X14_one_more_field sname fs (f : field_decl) cls cls' :
  define (registration sname fs) = Some cls →
  define (registration sname (fs ++ [f])) = Some cls' →
  ∀ (Σ : Type) (v : visitor_of Σ) s σ,
    traits.visitable_apply cls' v s σ
    = (σ' ← traits.visitable_apply cls v s σ;
       Some match f with
            | visitable_field TYPE NAME =>
                if decide (length (visitable_fields fs) < maxVisitableRank)
                then v NAME (member_ptr_helper_apply TYPE NAME s) σ'
                else σ'
            | plain_field _ _ => σ'
            end).
Proof.
  intros Hcls Hcls' Σ v s σ.
  rewrite (visit_registered _ _ _ _ _ _ Hcls),
    (visit_registered _ _ _ _ _ _ Hcls'). simpl. f_equal.
  rewrite visitable_fields_app.
  destruct f as [TYPE NAME|TYPE NAME]; simpl.
  - case_decide as Hlt.
    + rewrite !take_ge by (rewrite ?length_app; simpl; lia).
      unfold calls_on. by rewrite foldl_app.
    + by rewrite take_app_le by lia.
  - by rewrite app_nil_r.
Qed.

Lemma X14_witness :
  define (registration "Point" Point_x_fields) = Some Point_x_class ∧
  define (registration "Point"
            (Point_x_fields ++ [visitable_field int "y"]))
  = Some Point_class ∧
  traits.visitable_apply Point_class record_calls instance0 []
  = (calls ← traits.visitable_apply Point_x_class record_calls instance0 [];
     Some (if decide (length (visitable_fields Point_x_fields)
                      < maxVisitableRank)
           then record_calls "y" (member_ptr_helper_apply int "y" instance0)
                  calls
           else calls)).
Proof.
  assert (H1 : define (registration "Point" Point_x_fields)
               = Some Point_x_class) by reflexivity.
  assert (H2 : define (registration "Point"
                         (Point_x_fields ++ [visitable_field int "y"]))
               = Some Point_class) by reflexivity.
  split; [exact H1|]. split; [exact H2|].
  exact (X14_one_more_field "Point" Point_x_fields
           (visitable_field int "y") _ _ H1 H2 _ record_calls instance0 []).
Defined.

(** ** Fields of reference type *)

Lemma define_visitable_types items cls :
  define items = Some cls →
  ∀ TYPE NAME, visitable TYPE NAME ∈ items →
    is_reference TYPE = false ∧ data_member TYPE NAME ∈ cls.
Proof.
  revert items cls.
  apply (define_ind (λ items cls,
           ∀ TYPE NAME, visitable TYPE NAME ∈ items →
             is_reference TYPE = false ∧ data_member TYPE NAME ∈ cls)).
  { by intros TYPE NAME ?%elem_of_nil. }
  intros before i body body' _ IH Hi TYPE NAME.
  intros [Hin| <-%list_elem_of_singleton]%elem_of_app.
  - apply expand_extends in Hi as (new & -> & _).
    destruct (IH _ _ Hin) as [? ?]. split; [done|].
    apply elem_of_app. by left.
  - simpl in Hi.
    apply VISITABLE_Some in Hi as (cur & L & Hobj & _ & _ & _ & _ & ->).
    split; [done|]. apply elem_of_app. right. by left.
Qed.

(** X15.  A data member of reference type cannot be registered: there is
    no pointer to member for it, so [VISITABLE] with a reference type is
    ill-formed wherever it is written, and a structure definition that
    contains it is rejected.  As an ordinary member the same declaration is
    accepted wherever its name is free. *)
Theorem X15_reference_fields (TYPE : cpp_type) (NAME : string) :
  is_reference TYPE = true →
  (∀ body, VISITABLE TYPE NAME body = None) ∧
  (∀ items, visitable TYPE NAME ∈ items → define items = None) ∧
  (∀ body, NAME ∉ decl_name <$> body →
     expand (plain_member TYPE NAME) body
     = Some (body ++ [data_member TYPE NAME])).
Proof.
  intros Href. split_and!.
  - intros body. destruct (VISITABLE TYPE NAME body) as [body'|] eqn:H; [|done].
    apply VISITABLE_Some in H as (cur & L & Hobj & _). congruence.
  - intros items Hin. destruct (define items) as [cls|] eqn:H; [|done].
    destruct (define_visitable_types _ _ H _ _ Hin) as [Hobj _]. congruence.
  - intros body Hfresh. simpl. by apply declare_fresh.
Qed.

Lemma X15_witness :
  is_reference (reference_to cv_none "int") = true ∧
  define (registration "Holder" Holder_fields) = None.
Proof.
  assert (H : is_reference (reference_to cv_none "int") = true)
    by reflexivity.
  split; [exact H|].
  apply (proj1 (proj2 (X15_reference_fields (reference_to cv_none "int")
                         "target" H))).
  right. left.
Defined.

(** ** The tag test on other classes *)

Lemma find_member_access name a body m :
  find_member name ((λ d, (a, d)) <$> body) = Some m → m.1 = a.
Proof.
  induction body as [|d body IH]; [done|]. simpl.
  destruct (String.eqb name (decl_name d)); [by intros [= <-] | done].
Qed.

(** X16.  The tag test is a lookup of a member type from outside of the
    class.  A class that does not declare the tag itself has the tag of its
    base class when the base class is public and none otherwise; visiting
    an object of a class derived publicly from a visitable class, which
    declares neither the tag nor the registry, is visiting its base class:
    the members the derived class adds are not visited.  A class whose
    members are all private never passes the test. *)
Theorem X16_tag_lookup (Base : class_type) (key : class_key)
    (body : class_body) :
  Visit_Struct_Visitable_Structure_Tag__ ∉ decl_name <$> body →
  (∀ a, traits.visitable_matches (derived_of key a Base body)
        = if decide (a = public) then traits.visitable_matches Base
          else false) ∧
  (Visit_Struct_Registered_Members_List__ ∉ decl_name <$> body →
   ∀ (Σ : Type) (v : visitor_of Σ) s σ,
     visit (derived_of key public Base body) s v σ = visit Base s v σ) ∧
  (∀ members : class_body,
     traits.visitable_matches (class_of key_class members) = false) ∧
  (∀ (members : class_body) a,
     a ≠ public →
     traits.visitable_matches (derived_of key_class a Base members) = false).
Proof.
  intros Htag.
  assert (Hmatch : traits.visitable_matches (derived_of key public Base body)
                   = traits.visitable_matches Base).
  { unfold traits.visitable_matches, derived_of. simpl.
    by rewrite find_member_fresh. }
  split_and!.
  - intros a. case_decide as Ha; [by subst a|].
    unfold traits.visitable_matches, derived_of. simpl.
    rewrite find_member_fresh by done. by destruct a.
  - intros Hlist Σ v s σ. unfold visit, traits.visitable_apply.
    rewrite Hmatch. destruct (traits.visitable_matches Base); [|done].
    unfold derived_of. simpl. by rewrite find_member_fresh.
  - intros members. unfold traits.visitable_matches, class_of. simpl.
    destruct (find_member _ _) as [[a d]|] eqn:Hfind; [|done].
    apply find_member_access in Hfind. simpl in Hfind. by subst a.
  - intros members a Ha. unfold traits.visitable_matches, derived_of. simpl.
    destruct (find_member _ _) as [[a' d]|] eqn:Hfind.
    + apply find_member_access in Hfind. simpl in Hfind. by subst a'.
    + by destruct a.
Qed.

Lemma X16_witness :
  (Visit_Struct_Visitable_Structure_Tag__
   ∉ decl_name <$> [data_member int "z"]) ∧
  (Visit_Struct_Registered_Members_List__
   ∉ decl_name <$> [data_member int "z"]) ∧
  visit Point3 instance0 (emit Point_memory) []
  = visit (struct_of Point_class) instance0 (emit Point_memory) [].
Proof.
  assert (H1 : Visit_Struct_Visitable_Structure_Tag__
               ∉ decl_name <$> [data_member int "z"]).
  { refine (bool_decide_unpack _ _). by vm_compute. }
  assert (H2 : Visit_Struct_Registered_Members_List__
               ∉ decl_name <$> [data_member int "z"]).
  { refine (bool_decide_unpack _ _). by vm_compute. }
  split; [exact H1|]. split; [exact H2|].
  exact (proj1 (proj2 (X16_tag_lookup (struct_of Point_class) key_struct
                         [data_member int "z"] H1))
           H2 _ (emit Point_memory) instance0 []).
Defined.
